(** * Keyword scorer and fuzzy deduplicator of the internship aggregator

    A shallow embedding of [src/filters/keyword_filter.py] (class
    [KeywordFilter]) and [src/utils/deduplicator.py] (class
    [JobDeduplicator]), together with the part of Python's [difflib] that
    [calculate_similarity] calls, and the properties of the pipeline that
    the design document states about them. *)

From Stdlib Require Import ZArith QArith Ascii String.
From stdpp Require Import base option list strings gmap pretty sorting.

Local Open Scope string_scope.
Local Open Scope nat_scope.
Local Open Scope list_scope.

(** ** Python strings

    A [str] is modelled as a [string] whose characters are the code points
    below 256.  [str.lower] and [str.strip] follow Python on that range. *)

Definition py_lower_char (c : ascii) : ascii :=
  let n := nat_of_ascii c in
  if ((65 <=? n) && (n <=? 90)) || ((192 <=? n) && (n <=? 222) && negb (n =? 215))
  then ascii_of_nat (n + 32) else c.

(** [s.lower()] *)
Fixpoint py_lower (s : string) : string :=
  match s with
  | EmptyString => EmptyString
  | String c r => String (py_lower_char c) (py_lower r)
  end.

(** [c.isspace()] for a code point below 256. *)
Definition py_isspace (c : ascii) : bool :=
  let n := nat_of_ascii c in
  ((9 <=? n) && (n <=? 13)) || ((28 <=? n) && (n <=? 32)) || (n =? 133) || (n =? 160).

Fixpoint py_lstrip (s : string) : string :=
  match s with
  | EmptyString => EmptyString
  | String c r => if py_isspace c then py_lstrip r else s
  end.

(** [s.strip()] *)
Definition py_strip (s : string) : string :=
  String.rev (py_lstrip (String.rev (py_lstrip s))).

(** [k in t] on two strings: [k] occurs in [t] as a contiguous substring. *)
Fixpoint py_in (k t : string) : bool :=
  String.prefix k t ||
  match t with
  | EmptyString => false
  | String _ r => py_in k r
  end.

(** [s[:n]] *)
Fixpoint py_slice_to (n : nat) (s : string) : string :=
  match n, s with
  | S n', String c r => String c (py_slice_to n' r)
  | _, _ => EmptyString
  end.

(** ** difflib.SequenceMatcher

    [SequenceMatcher(None, a, b)] with [isjunk = None] and [autojunk = True],
    as [calculate_similarity] builds it.  Indices are naturals; the places
    where Python's integer arithmetic passes below zero are written out. *)

Module difflib.

(** A [Match(a, b, size)] triple. *)
Definition Match : Type := nat * nat * nat.

Definition match_size (m : Match) : nat := m.2.

Section matcher.
Context (a b : list ascii).

(** Positions of [c] in [b] from position [j0] on, ascending: the list
    [__chain_b] stores under the key [c]. *)
Fixpoint indices_from (j0 : nat) (c : ascii) (l : list ascii) : list nat :=
  match l with
  | [] => []
  | x :: r =>
      if bool_decide (x = c) then j0 :: indices_from (S j0) c r
      else indices_from (S j0) c r
  end.

(** [__chain_b] deletes the "popular" keys of [b2j] when [b] has at
    least 200 elements: those with more than [n // 100 + 1] positions.
    [bjunk] stays empty, since [isjunk] is [None]. *)
Definition popular (c : ascii) : bool :=
  let n := length b in
  (200 <=? n) && (n `div` 100 + 1 <? length (indices_from 0 c b)).

(** [b2j.get(c, nothing)] *)
Definition b2j_get (c : ascii) : list nat :=
  if popular c then [] else indices_from 0 c b.

(** State of the scan of [find_longest_match]: the row under
    construction and the best block so far. *)
Record scan := Scan {
  newj2len : gmap nat nat;
  besti : nat;
  bestj : nat;
  bestsize : nat
}.

(** [j2len.get(j-1, 0)]; no key is negative, so [j = 0] reads 0. *)
Definition j2lenget (j2len : gmap nat nat) (j : nat) : nat :=
  match j with
  | O => 0
  | S j' => default 0 (j2len !! j')
  end.

(** The loop [for j in b2j.get(a[i], nothing)] with its [continue] and
    [break].  [i - k + 1] is written [i + 1 - k]. *)
Fixpoint scan_row (i blo bhi : nat) (j2len : gmap nat nat)
    (js : list nat) (st : scan) : scan :=
  match js with
  | [] => st
  | j :: js' =>
      if j <? blo then scan_row i blo bhi j2len js' st
      else if bhi <=? j then st
      else
        let k := j2lenget j2len j + 1 in
        let row := <[j := k]> (newj2len st) in
        if bestsize st <? k
        then scan_row i blo bhi j2len js' (Scan row (i + 1 - k) (j + 1 - k) k)
        else scan_row i blo bhi j2len js'
               (Scan row (besti st) (bestj st) (bestsize st))
  end.

(** The loop [for i in range(alo, ahi)], over the list of its indices.
    Each round starts a fresh [newj2len] and ends with
    [j2len = newj2len].  The indices lie in [a], so [a[i]] is there. *)
Fixpoint scan_rows (blo bhi : nat) (rows : list nat) (j2len : gmap nat nat)
    (bi bj bs : nat) : nat * nat * nat :=
  match rows with
  | [] => (bi, bj, bs)
  | i :: rows' =>
      let js := match a !! i with Some c => b2j_get c | None => [] end in
      let st := scan_row i blo bhi j2len js (Scan ∅ bi bj bs) in
      scan_rows blo bhi rows' (newj2len st) (besti st) (bestj st) (bestsize st)
  end.

(** First [while]: extend the block to the left while the elements
    before it agree ([isbjunk] is constantly false). *)
Fixpoint extend_left (alo blo bi bj bs : nat) : nat * nat * nat :=
  match bi, bj with
  | S i', S j' =>
      if (alo <? bi) && (blo <? bj) && bool_decide (a !! i' = b !! j')
      then extend_left alo blo i' j' (S bs)
      else (bi, bj, bs)
  | _, _ => (bi, bj, bs)
  end.

(** Second [while]: extend to the right.  [n] bounds the rounds; it is
    called with [ahi - (besti + bestsize)], the loop's variant. *)
Fixpoint extend_right (n ahi bhi bi bj bs : nat) : nat :=
  match n with
  | O => bs
  | S n' =>
      if (bi + bs <? ahi) && (bj + bs <? bhi)
         && bool_decide (a !! (bi + bs) = b !! (bj + bs))
      then extend_right n' ahi bhi bi bj (S bs)
      else bs
  end.

(** [find_longest_match(alo, ahi, blo, bhi)].  The last two [while]
    loops of the source require [isbjunk(...)] and never run. *)
Definition find_longest_match (alo ahi blo bhi : nat) : Match :=
  let '(bi, bj, bs) := scan_rows blo bhi (seq alo (ahi - alo)) ∅ alo blo 0 in
  let '(bi, bj, bs) := extend_left alo blo bi bj bs in
  (bi, bj, extend_right (ahi - (bi + bs)) ahi bhi bi bj bs).

(** The [while queue] loop of [get_matching_blocks].  The queue is a
    stack whose top is the head of the list; [None] when [n] rounds
    did not empty it. *)
Fixpoint blocks_loop (n : nat) (queue : list (nat * nat * nat * nat))
    (matching_blocks : list Match) : option (list Match) :=
  match queue with
  | [] => Some matching_blocks
  | (alo, ahi, blo, bhi) :: queue' =>
      match n with
      | O => None
      | S n' =>
          let '(i, j, k) := find_longest_match alo ahi blo bhi in
          if k =? 0 then blocks_loop n' queue' matching_blocks
          else
            let q1 := if (alo <? i) && (blo <? j)
                      then (alo, i, blo, j) :: queue' else queue' in
            let q2 := if (i + k <? ahi) && (j + k <? bhi)
                      then (i + k, ahi, j + k, bhi) :: q1 else q1 in
            blocks_loop n' q2 (matching_blocks ++ [(i, j, k)])
      end
  end.

(** Tuple order on triples, as [matching_blocks.sort()] uses it. *)
Definition match_le (x y : Match) : Prop :=
  let '(i1, j1, k1) := x in
  let '(i2, j2, k2) := y in
  i1 < i2 ∨ (i1 = i2 ∧ (j1 < j2 ∨ (j1 = j2 ∧ k1 ≤ k2))).

Global Instance match_le_dec x y : Decision (match_le x y).
Proof. destruct x as [[??]?], y as [[??]?]; simpl; apply _. Defined.

(** The loop that merges adjacent blocks. *)
Fixpoint collapse (blocks : list Match) (i1 j1 k1 : nat) : list Match :=
  match blocks with
  | [] => if k1 =? 0 then [] else [(i1, j1, k1)]
  | (i2, j2, k2) :: r =>
      if (i1 + k1 =? i2) && (j1 + k1 =? j2) then collapse r i1 j1 (k1 + k2)
      else (if k1 =? 0 then [] else [(i1, j1, k1)]) ++ collapse r i2 j2 k2
  end.

(** Rounds that [blocks_loop] is run for. *)
Definition rounds : nat := 2 * length a + 2.

Definition get_matching_blocks : list Match :=
  let la := length a in
  let lb := length b in
  let found := default [] (blocks_loop rounds [(0, la, 0, lb)] []) in
  collapse (merge_sort match_le found) 0 0 0 ++ [(la, lb, 0)].

(** [sum(triple[-1] for triple in self.get_matching_blocks())] *)
Definition matches : nat := sum_list (match_size <$> get_matching_blocks).

(** [ratio()], with [_calculate_ratio]: the exact quotient that
    [2.0 * matches / length] rounds to a double. *)
Definition ratio : Q :=
  let len := length a + length b in
  if len =? 0 then 1%Q
  else Qmake (2 * Z.of_nat matches) (Pos.of_nat len).

End matcher.

(** What the queue still holds, counted so that every round of
    [blocks_loop] lowers it. *)
Definition queue_weight (queue : list (nat * nat * nat * nat)) : nat :=
  sum_list ((λ '(alo, ahi, _, _), 2 * (ahi - alo) + 1) <$> queue).

Definition queue_wf (queue : list (nat * nat * nat * nat)) : Prop :=
  Forall (λ '(alo, ahi, _, _), alo ≤ ahi) queue.

End difflib.

(** ** Jobs

    A job is a [dict] with the keys of the canonical record.  A key may be
    absent ([None] below); when present, its value is [None], a [str] or an
    [int]; [float] values are outside the model.  [relevance_score] and
    [score_breakdown] are the two keys that [filter_jobs] writes, an [int]
    and the breakdown [dict]. *)

Inductive PyVal : Type :=
  | VNone
  | VStr (s : string)
  | VInt (z : Z).

Global Instance PyVal_eq_dec : EqDecision PyVal.
Proof. solve_decision. Defined.

(** [str(v)] *)
Definition py_str (v : PyVal) : string :=
  match v with
  | VNone => "None"
  | VStr s => s
  | VInt z => pretty z
  end.

Record Breakdown : Type := mkBreakdown {
  title_matches : list string;
  title_excludes : list string;
  description_matches : list string;
  total_score : Z
}.

Global Instance Breakdown_eq_dec : EqDecision Breakdown.
Proof. solve_decision. Defined.

Record Job : Type := mkJob {
  job_id : option PyVal;
  title : option PyVal;
  company : option PyVal;
  location : option PyVal;
  description : option PyVal;
  url : option PyVal;
  posted_date : option PyVal;
  source : option PyVal;
  relevance_score : option Z;
  score_breakdown : option Breakdown
}.

Global Instance Job_eq_dec : EqDecision Job.
Proof. solve_decision. Defined.

(** [job.get(key, d)] on the field of that key. *)
Definition dict_get (field : option PyVal) (d : PyVal) : PyVal := default d field.

(** The characters of a string, the sequence [SequenceMatcher] works on. *)
Definition chars (s : string) : list ascii := list_ascii_of_string s.

(** ** JobDeduplicator *)

(** [title_threshold] is held as an exact rational; the comparison
    [similarity >= self.title_threshold] is made on exact quotients. *)
Record JobDeduplicator : Type := mkJobDeduplicator {
  title_threshold : Q
}.

(** [JobDeduplicator()], with the default [title_similarity_threshold = 0.85]. *)
Definition default_deduplicator : JobDeduplicator :=
  {| title_threshold := 85 # 100 |}.

(** The second component of the result of [are_jobs_duplicate].  The
    formatted texts carry the normalized company and, for similar titles,
    the similarity. *)
Inductive Reason : Type :=
  | ExactIDMatch
  | MissingOrInvalidCompany
  | DifferentCompanies
  | MissingOrInvalidTitle
  | ExactMatch (company1 : string)
  | SimilarTitles (company1 : string) (similarity : Q)
  | DifferentRoles (company1 : string).

(** The text of a reason; [SimilarTitles] prints its similarity with
    [:.2f], a rendering of the double, and has no text here. *)
Definition reason_text (r : Reason) : option string :=
  match r with
  | ExactIDMatch => Some "Exact ID match"
  | MissingOrInvalidCompany => Some "Missing or invalid company"
  | DifferentCompanies => Some "Different companies"
  | MissingOrInvalidTitle => Some "Missing or invalid title"
  | ExactMatch c => Some ("Exact match: " +:+ c)
  | SimilarTitles _ _ => None
  | DifferentRoles c => Some ("Different roles at " +:+ c)
  end.

Definition calculate_similarity (str1 str2 : string) : Q :=
  difflib.ratio (chars (py_lower str1)) (chars (py_lower str2)).

(** [str(raw).lower().strip() if raw not in [None, ''] else ''] *)
Definition normalize (raw : PyVal) : string :=
  if bool_decide (raw ∈ [VNone; VStr ""]) then ""
  else py_strip (py_lower (py_str raw)).

(** [s in ['nan', 'none', '']] *)
Definition invalid (s : string) : bool :=
  bool_decide (s ∈ ["nan"; "none"; ""]).

Definition are_jobs_duplicate (self : JobDeduplicator) (job1 job2 : Job)
    : bool * Reason :=
  if bool_decide (dict_get (job_id job1) VNone = dict_get (job_id job2) VNone)
  then (true, ExactIDMatch)
  else
    let company1 := normalize (dict_get (company job1) (VStr "")) in
    let company2 := normalize (dict_get (company job2) (VStr "")) in
    if invalid company1 || invalid company2 then (false, MissingOrInvalidCompany)
    else if negb (bool_decide (company1 = company2)) then (false, DifferentCompanies)
    else
      let title1 := normalize (dict_get (title job1) (VStr "")) in
      let title2 := normalize (dict_get (title job2) (VStr "")) in
      if invalid title1 || invalid title2 then (false, MissingOrInvalidTitle)
      else if bool_decide (title1 = title2) then (true, ExactMatch company1)
      else
        let similarity := calculate_similarity title1 title2 in
        if Qle_bool (title_threshold self) similarity
        then (true, SimilarTitles company1 similarity)
        else (false, DifferentRoles company1).

(** [job.get('relevance_score', 0)] *)
Definition score_of (job : Job) : Z := default 0%Z (relevance_score job).

(** [l.remove(x)]: drops the first element equal to [x].  The source calls
    it on an element of the list. *)
Fixpoint list_remove (x : Job) (l : list Job) : list Job :=
  match l with
  | [] => []
  | y :: r => if decide (y = x) then r else y :: list_remove x r
  end.

(** The loop [for existing_job in unique_jobs] for one incoming [job]:
    [rest] is what remains to be visited of [unique_jobs].  Returns
    [is_duplicate] and the list after the loop. *)
Fixpoint scan_unique (self : JobDeduplicator) (job : Job)
    (rest unique_jobs : list Job) : bool * list Job :=
  match rest with
  | [] => (false, unique_jobs)
  | existing_job :: rest' =>
      if (are_jobs_duplicate self job existing_job).1 then
        if (score_of existing_job <? score_of job)%Z
        then (true, list_remove existing_job unique_jobs ++ [job])
        else (true, unique_jobs)
      else scan_unique self job rest' unique_jobs
  end.

(** One round of the loop [for job in jobs]. *)
Definition dedup_step (self : JobDeduplicator) (unique_jobs : list Job)
    (job : Job) : list Job :=
  let '(is_duplicate, unique_jobs') := scan_unique self job unique_jobs unique_jobs in
  if is_duplicate then unique_jobs' else unique_jobs' ++ [job].

Definition deduplicate (self : JobDeduplicator) (jobs : list Job) : list Job :=
  match jobs with
  | [] => []
  | _ => fold_left (dedup_step self) jobs []
  end.

(** [find_duplicates]: every pair, earlier job first. *)
Fixpoint find_duplicates (self : JobDeduplicator) (jobs : list Job)
    : list (Job * Job * Reason) :=
  match jobs with
  | [] => []
  | job1 :: rest =>
      omap (λ job2,
              let '(is_dup, reason) := are_jobs_duplicate self job1 job2 in
              if is_dup then Some (job1, job2, reason) else None) rest
      ++ find_duplicates self rest
  end.

(** ** KeywordFilter *)

(** The keys of [keywords.yml] that the constructor reads; a key may be
    absent. *)
Record Config : Type := mkConfig {
  cfg_internship_keywords : option (list string);
  cfg_include_title : option (list string);
  cfg_exclude_title : option (list string);
  cfg_include_description : option (list string);
  cfg_minimum_match_score : option Z
}.

Record KeywordFilter : Type := mkKeywordFilter {
  internship_keywords : list string;
  include_title : list string;
  exclude_title : list string;
  include_description : list string;
  minimum_score : Z
}.

(** [__init__], after the file is loaded. *)
Definition KeywordFilter_init (config : Config) : KeywordFilter :=
  {| internship_keywords := py_lower <$> default [] (cfg_internship_keywords config);
     include_title := py_lower <$> default [] (cfg_include_title config);
     exclude_title := py_lower <$> default [] (cfg_exclude_title config);
     include_description := py_lower <$> default [] (cfg_include_description config);
     minimum_score := default 3%Z (cfg_minimum_match_score config) |}.

(** [str(job.get(key, '')).lower()] *)
Definition lowered (field : option PyVal) : string :=
  py_lower (py_str (dict_get field (VStr ""))).

(** [for keyword in keywords: if keyword in text: return True] *)
Fixpoint first_hit (keywords : list string) (text : string) : bool :=
  match keywords with
  | [] => false
  | keyword :: rest => if py_in keyword text then true else first_hit rest text
  end.

Definition is_internship (self : KeywordFilter) (job : Job) : bool :=
  let title := lowered (title job) in
  let description := lowered (description job) in
  if first_hit (internship_keywords self) title then true
  else if first_hit (take 3 (internship_keywords self)) (py_slice_to 500 description)
  then true
  else false.

(** One of the three scoring loops: each keyword found in [text] adds
    [weight] to the score and is appended to the list of matches. *)
Fixpoint score_loop (weight : Z) (keywords : list string) (text : string)
    (score : Z) (found : list string) : Z * list string :=
  match keywords with
  | [] => (score, found)
  | keyword :: rest =>
      if py_in keyword text
      then score_loop weight rest text (score + weight)%Z (found ++ [keyword])
      else score_loop weight rest text score found
  end.

Definition calculate_relevance_score (self : KeywordFilter) (job : Job)
    : Z * Breakdown :=
  let title := lowered (title job) in
  let description := lowered (description job) in
  let '(score, matches) := score_loop 3 (include_title self) title 0 [] in
  let '(score, excludes) := score_loop (-10) (exclude_title self) title score [] in
  let '(score, desc) := score_loop 1 (include_description self) description score [] in
  (score, {| title_matches := matches; title_excludes := excludes;
             description_matches := desc; total_score := score |}).

Definition is_relevant (self : KeywordFilter) (job : Job) : bool :=
  (minimum_score self <=? (calculate_relevance_score self job).1)%Z.

(** [job['relevance_score'] = score; job['score_breakdown'] = breakdown] *)
Definition attach (job : Job) (score : Z) (breakdown : Breakdown) : Job :=
  {| job_id := job_id job; title := title job; company := company job;
     location := location job; description := description job; url := url job;
     posted_date := posted_date job; source := source job;
     relevance_score := Some score; score_breakdown := Some breakdown |}.

(** [l.sort(key=..., reverse=True)] and [sorted(l, key=..., reverse=True)]:
    the stable sort by descending key, written as an insertion sort. *)
Section sort.
Context {A : Type} (key : A → Z).

Fixpoint insert_desc (x : A) (l : list A) : list A :=
  match l with
  | [] => [x]
  | y :: r => if (key x <? key y)%Z then y :: insert_desc x r else x :: y :: r
  end.

Fixpoint sort_desc (l : list A) : list A :=
  match l with
  | [] => []
  | x :: r => insert_desc x (sort_desc r)
  end.
End sort.

(** The loop [for job in jobs] of [filter_jobs]. *)
Fixpoint filter_loop (self : KeywordFilter) (require_internship : bool)
    (jobs filtered_jobs : list Job) : list Job :=
  match jobs with
  | [] => filtered_jobs
  | job :: rest =>
      if require_internship && negb (is_internship self job)
      then filter_loop self require_internship rest filtered_jobs
      else
        let '(score, breakdown) := calculate_relevance_score self job in
        if (minimum_score self <=? score)%Z
        then filter_loop self require_internship rest
               (filtered_jobs ++ [attach job score breakdown])
        else filter_loop self require_internship rest filtered_jobs
  end.

(** The sort key [lambda x: x['relevance_score']] raises [KeyError] on a
    job without the key: the sort is [None] then. *)
Definition sort_by_score (l : list Job) : option (list Job) :=
  if forallb (λ x, bool_decide (is_Some (relevance_score x))) l
  then Some (sort_desc score_of l)
  else None.

Definition filter_jobs (self : KeywordFilter) (jobs : list Job)
    (require_internship : bool) : option (list Job) :=
  sort_by_score (filter_loop self require_internship jobs []).

Record Statistics : Type := mkStatistics {
  total : nat;
  average_score : Q;
  score_range : Z * Z;
  top_keywords : list (string * nat)
}.

(** [keyword_counts[keyword] = keyword_counts.get(keyword, 0) + 1] on a
    [dict] kept in insertion order. *)
Fixpoint count_keyword (keyword : string) (counts : list (string * nat))
    : list (string * nat) :=
  match counts with
  | [] => [(keyword, 1)]
  | (k, n) :: rest =>
      if bool_decide (k = keyword) then (k, n + 1) :: rest
      else (k, n) :: count_keyword keyword rest
  end.

(** [job.get('score_breakdown', {}).get('title_matches', [])] *)
Definition title_matches_of (job : Job) : list string :=
  match score_breakdown job with
  | Some bd => title_matches bd
  | None => []
  end.

Definition keyword_counts (jobs : list Job) : list (string * nat) :=
  fold_left (λ counts job, fold_left (λ c k, count_keyword k c) (title_matches_of job) counts)
    jobs [].

(** [get_statistics]; [None] stands for the [KeyError] of
    [j['relevance_score']].  [average_score] is the exact quotient of the
    sum by the length: the rounding of the float division, and its
    [OverflowError] on a quotient beyond the range of a float, are not
    modelled. *)
Definition get_statistics (jobs : list Job) : option Statistics :=
  match jobs with
  | [] => Some {| total := 0; average_score := 0; score_range := (0%Z, 0%Z);
                  top_keywords := [] |}
  | _ =>
      scores ← mapM relevance_score jobs;
      match scores with
      | [] => None
      | s :: rest =>
          Some {| total := length jobs;
                  average_score :=
                    Qmake (foldr Z.add 0%Z scores) (Pos.of_nat (length scores));
                  score_range := (foldr Z.min s rest, foldr Z.max s rest);
                  top_keywords :=
                    take 10 (sort_desc (λ kv, Z.of_nat kv.2) (keyword_counts jobs)) |}
      end
  end.

(** ** InternshipScraper

    The steps of [main.py] between scraping and saving. *)

Module InternshipScraper.

(** [filter_jobs]: the filter with the internship gate, then the
    statistics, which are only logged.  [None] stands for an exception of
    either call. *)
Definition filter_jobs (filter : KeywordFilter) (jobs : list Job)
    : option (list Job) :=
  filtered_jobs ← filter_jobs filter jobs true;
  stats ← get_statistics filtered_jobs;
  Some filtered_jobs.

Definition deduplicate_jobs (deduplicator : JobDeduplicator) (jobs : list Job)
    : list Job :=
  deduplicate deduplicator jobs.

(** How [run] goes on after [scrape_all_sources] returned [all_jobs]: it
    returns early on an empty list, or reaches steps 4 and 5 with
    [filtered_jobs] and [unique_jobs], or an exception takes it to the
    error notification. *)
Inductive Outcome : Type :=
  | NoJobsFound
  | NoRelevantJobs
  | Publishes (filtered_jobs unique_jobs : list Job)
  | Fails.

Definition run (filter : KeywordFilter) (deduplicator : JobDeduplicator)
    (all_jobs : list Job) : Outcome :=
  match all_jobs with
  | [] => NoJobsFound
  | _ =>
      match filter_jobs filter all_jobs with
      | None => Fails
      | Some [] => NoRelevantJobs
      | Some filtered_jobs =>
          Publishes filtered_jobs (deduplicate_jobs deduplicator filtered_jobs)
      end
  end.

End InternshipScraper.

(** ** Notions used in the statements *)

(** [job.get('id')] *)
Definition id_of (job : Job) : PyVal := dict_get (job_id job) VNone.

(** [counts.get(keyword, 0)] on the [dict] of counts. *)
Fixpoint count_of (keyword : string) (counts : list (string * nat)) : nat :=
  match counts with
  | [] => 0
  | (k, n) :: rest => if bool_decide (k = keyword) then n else count_of keyword rest
  end.

(** How often a keyword is met in a list of keywords, and in the
    [title_matches] of a list of jobs. *)
Definition occurrences_in (keyword : string) (keywords : list string) : nat :=
  length (filter (λ k, k = keyword) keywords).
Definition occurrences (keyword : string) (jobs : list Job) : nat :=
  occurrences_in keyword (mjoin (title_matches_of <$> jobs)).


(** The job with other values under [title] and [description]. *)
Definition with_text (job : Job) (t d : PyVal) : Job :=
  {| job_id := job_id job; title := Some t; company := company job;
     location := location job; description := Some d; url := url job;
     posted_date := posted_date job; source := source job;
     relevance_score := relevance_score job;
     score_breakdown := score_breakdown job |}.

(** The job with other values under [company] and [title]. *)
Definition with_company_title (job : Job) (c t : PyVal) : Job :=
  {| job_id := job_id job; title := Some t; company := Some c;
     location := location job; description := description job; url := url job;
     posted_date := posted_date job; source := source job;
     relevance_score := relevance_score job;
     score_breakdown := score_breakdown job |}.

(** The configuration with every keyword in lower case. *)
Definition lower_config (config : Config) : Config :=
  {| cfg_internship_keywords := (λ l : list string, py_lower <$> l) <$> cfg_internship_keywords config;
     cfg_include_title := (λ l : list string, py_lower <$> l) <$> cfg_include_title config;
     cfg_exclude_title := (λ l : list string, py_lower <$> l) <$> cfg_exclude_title config;
     cfg_include_description := (λ l : list string, py_lower <$> l) <$> cfg_include_description config;
     cfg_minimum_match_score := cfg_minimum_match_score config |}.

(** A deduplicator with a threshold of 0.8. *)
Definition loose_deduplicator : JobDeduplicator :=
  {| title_threshold := 8 # 10 |}.

(** The entries of a row of [find_longest_match] sit at positions from
    [blo] on and do not reach back before [blo]. *)
Definition row_ok (blo : nat) (row : gmap nat nat) : Prop :=
  map_Forall (λ j v, blo ≤ j ∧ v ≤ j + 1 - blo) row.

(** The sizes of a list of blocks, summed. *)
Definition block_total (blocks : list difflib.Match) : nat :=
  sum_list (difflib.match_size <$> blocks).

(** The lengths of the stretches of [a] and of [b] that the queue still
    holds. *)
Definition span_a (queue : list (nat * nat * nat * nat)) : nat :=
  sum_list ((λ '(alo, ahi, _, _), ahi - alo) <$> queue).
Definition span_b (queue : list (nat * nat * nat * nat)) : nat :=
  sum_list ((λ '(_, _, blo, bhi), bhi - blo) <$> queue).

(** The normalized company and title that [are_jobs_duplicate] compares. *)
Definition company_of (job : Job) : string :=
  normalize (dict_get (company job) (VStr "")).
Definition title_of (job : Job) : string :=
  normalize (dict_get (title job) (VStr "")).

(** The boolean of [are_jobs_duplicate(job, existing_job)]. *)
Definition is_dup (self : JobDeduplicator) (job existing_job : Job) : bool :=
  (are_jobs_duplicate self job existing_job).1.

(** The pair gets as far as the similarity test: the ids differ, the
    companies are valid and equal, the titles are valid and differ. *)
Definition reaches_similarity (job1 job2 : Job) : bool :=
  negb (bool_decide (dict_get (job_id job1) VNone = dict_get (job_id job2) VNone))
  && negb (invalid (company_of job1) || invalid (company_of job2))
  && bool_decide (company_of job1 = company_of job2)
  && negb (invalid (title_of job1) || invalid (title_of job2))
  && negb (bool_decide (title_of job1 = title_of job2)).

(** No job of the list is judged a duplicate of a job before it. *)
Definition settled (self : JobDeduplicator) (jobs : list Job) : Prop :=
  ∀ i j x y, i < j → jobs !! i = Some x → jobs !! j = Some y →
             is_dup self y x = false.

(** The scores do not increase along the list, a missing score counting
    as 0: the order in which [filter_jobs] hands jobs over. *)
Fixpoint score_descending (jobs : list Job) : bool :=
  match jobs with
  | [] => true
  | job :: rest =>
      forallb (λ later, (score_of later <=? score_of job)%Z) rest
      && score_descending rest
  end.

(** [k] occurs in [t] as a contiguous substring. *)
Definition substring_of (k t : string) : Prop :=
  ∃ pre post, t = pre +:+ k +:+ post.

(** The keywords of a list that occur in a text, in the order of the
    list. *)
Definition hits (keywords : list string) (text : string) : list string :=
  filter (λ k, py_in k text = true) keywords.

(** A job goes through [filter_jobs]: it passes the internship gate when
    that is required, and its score reaches the minimum. *)
Definition passes (self : KeywordFilter) (require_internship : bool)
    (job : Job) : bool :=
  (negb require_internship || is_internship self job)
  && (minimum_score self <=? (calculate_relevance_score self job).1)%Z.

(** The job with its score and breakdown attached. *)
Definition scored (self : KeywordFilter) (job : Job) : Job :=
  attach job (calculate_relevance_score self job).1
             (calculate_relevance_score self job).2.

(** Two jobs agree on the fields that a source adapter sets. *)
Definition same_source_fields (job' job : Job) : Prop :=
  title job' = title job ∧ company job' = company job
  ∧ location job' = location job ∧ description job' = description job
  ∧ url job' = url job ∧ posted_date job' = posted_date job
  ∧ source job' = source job ∧ job_id job' = job_id job.

(** The configuration with another list under a key. *)
Definition with_include_title (config : Config) (l : list string) : Config :=
  {| cfg_internship_keywords := cfg_internship_keywords config;
     cfg_include_title := Some l;
     cfg_exclude_title := cfg_exclude_title config;
     cfg_include_description := cfg_include_description config;
     cfg_minimum_match_score := cfg_minimum_match_score config |}.
Definition with_exclude_title (config : Config) (l : list string) : Config :=
  {| cfg_internship_keywords := cfg_internship_keywords config;
     cfg_include_title := cfg_include_title config;
     cfg_exclude_title := Some l;
     cfg_include_description := cfg_include_description config;
     cfg_minimum_match_score := cfg_minimum_match_score config |}.
Definition with_include_description (config : Config) (l : list string) : Config :=
  {| cfg_internship_keywords := cfg_internship_keywords config;
     cfg_include_title := cfg_include_title config;
     cfg_exclude_title := cfg_exclude_title config;
     cfg_include_description := Some l;
     cfg_minimum_match_score := cfg_minimum_match_score config |}.

(** ** Inputs of the examples *)

(** A keyword file in the shape of [data/keywords.yml]. *)
Definition keywords_yml : Config :=
  {| cfg_internship_keywords := Some ["intern"; "internship"; "co-op"; "Student"];
     cfg_include_title := Some ["design"; "intern"];
     cfg_exclude_title := Some ["engineer"];
     cfg_include_description := Some ["wireframe"];
     cfg_minimum_match_score := None |}.

(** The first job of the self-test at the end of [keyword_filter.py]. *)
Definition ux_intern : Job :=
  {| job_id := None; title := Some (VStr "UX Design Intern");
     company := Some (VStr "Test Co"); location := None;
     description :=
       Some (VStr "Work with Figma to create wireframes and prototypes for our mobile app");
     url := None; posted_date := None; source := None;
     relevance_score := None; score_breakdown := None |}.

(** A job as a source adapter and the scorer leave it: [id], [company],
    [title] and [relevance_score] set. *)
Definition posting (i c t : string) (score : Z) : Job :=
  {| job_id := Some (VStr i); title := Some (VStr t); company := Some (VStr c);
     location := None; description := None; url := None; posted_date := None;
     source := None; relevance_score := Some score; score_breakdown := None |}.

(** The jobs of the self-test at the end of [deduplicator.py]. *)
Definition test_jobs : list Job :=
  [ posting "1" "Figma" "Product Design Intern" 10;
    posting "2" "Figma" "Product Design Internship" 8;
    posting "3" "Stripe" "UX Design Intern" 9;
    posting "4" "Figma" "Engineering Intern" 7;
    posting "5" "Stripe" "UX Design Intern" 11 ].

(** The same jobs in the order [filter_jobs] would return them. *)
Definition test_jobs_sorted : list Job :=
  [ posting "5" "Stripe" "UX Design Intern" 11;
    posting "1" "Figma" "Product Design Intern" 10;
    posting "3" "Stripe" "UX Design Intern" 9;
    posting "2" "Figma" "Product Design Internship" 8;
    posting "4" "Figma" "Engineering Intern" 7 ].

(** Two postings of one company whose titles are close in one direction
    of the comparison only. *)
Definition uiux_posting : Job :=
  posting "greenhouse_1" "Figma" "UI/UX Design Internship" 6.
Definition visual_posting : Job :=
  posting "lever_2" "Figma" "Visual Design Internship" 6.

(** One posting fetched twice, its company lost upstream. *)
Definition nan_posting_1 : Job := posting "jobspy_77" "nan" "UX Design Intern" 6.
Definition nan_posting_2 : Job := posting "jobspy_77" "nan" "Product Designer" 3.

(** Three postings, not in score order: the last shares its [id] with the
    first and its company and title with the second. *)
Definition chain_jobs : list Job :=
  [ posting "lever_9" "Acme" "Design Intern" 5;
    posting "lever_12" "Stripe" "UX Research Intern" 7;
    posting "lever_9" "Stripe" "UX Research Intern" 6 ].

(** A record without [title] and [description]. *)
Definition anonymous_text_free : Job :=
  {| job_id := Some (VStr "rss_404"); title := None;
     company := Some (VStr "Acme"); location := None; description := None;
     url := None; posted_date := None; source := None;
     relevance_score := None; score_breakdown := None |}.

(** Two postings without the key [id]. *)
Definition anonymous_1 : Job :=
  {| job_id := None; title := Some (VStr "UX Design Intern");
     company := Some (VStr "Figma"); location := None; description := None;
     url := None; posted_date := None; source := None;
     relevance_score := None; score_breakdown := None |}.
Definition anonymous_2 : Job :=
  {| job_id := None; title := Some (VStr "Backend Engineer");
     company := Some (VStr "Stripe"); location := None; description := None;
     url := None; posted_date := None; source := None;
     relevance_score := None; score_breakdown := None |}.

(** * Properties *)

(** ** The matcher's loops stay in range and the block search ends *)

Section difflib_facts.
Import difflib.
Context (a b : list ascii).

Lemma j2lenget_bound (j2len : gmap nat nat) (bound j : nat) :
  map_Forall (λ _ v, v ≤ bound) j2len → j2lenget j2len j ≤ bound.
Proof.
  intros Hall. destruct j as [|j']; simpl; [lia|].
  destruct (j2len !! j') as [v|] eqn:Hv; simpl; [|lia].
  exact (Hall _ _ Hv).
Qed.

Lemma scan_row_bounds (alo i blo bhi : nat) (j2len : gmap nat nat) js st :
  alo ≤ i →
  map_Forall (λ _ v, v ≤ i - alo) j2len →
  alo ≤ besti st → besti st + bestsize st ≤ S i →
  map_Forall (λ _ v, v ≤ S i - alo) (newj2len st) →
  let st' := scan_row i blo bhi j2len js st in
  alo ≤ besti st' ∧ besti st' + bestsize st' ≤ S i
  ∧ map_Forall (λ _ v, v ≤ S i - alo) (newj2len st').
Proof.
  intros Hi Hprev. revert st.
  induction js as [|j js IH]; intros st Hlo Hhi Hrow; simpl; [done|].
  destruct (j <? blo); [by apply IH|].
  destruct (bhi <=? j); [done|].
  pose proof (j2lenget_bound j2len (i - alo) j Hprev) as Hk.
  assert (map_Forall (λ _ v, v ≤ S i - alo)
            (<[j := j2lenget j2len j + 1]> (newj2len st))) as Hrow'.
  { apply map_Forall_insert_2; [lia|done]. }
  destruct (bestsize st <? j2lenget j2len j + 1).
  - apply IH; simpl; [lia|lia|done].
  - apply IH; simpl; done.
Qed.

Lemma scan_rows_bounds (alo blo bhi n : nat) :
  ∀ i (j2len : gmap nat nat) bi bj bs,
    alo ≤ i →
    map_Forall (λ _ v, v ≤ i - alo) j2len →
    alo ≤ bi → bi + bs ≤ i →
    let '(bi', _, bs') := scan_rows a b blo bhi (seq i n) j2len bi bj bs in
    alo ≤ bi' ∧ bi' + bs' ≤ i + n.
Proof.
  induction n as [|n IH]; intros i j2len bi bj bs Hi Hprev Hlo Hhi; simpl.
  - lia.
  - set (js := match a !! i with Some c => b2j_get b c | None => [] end).
    destruct (scan_row_bounds alo i blo bhi j2len js (Scan ∅ bi bj bs))
      as (H1 & H2 & H3); simpl; [done|done|done|lia|apply map_Forall_empty|].
    specialize (IH (S i) (newj2len (scan_row i blo bhi j2len js (Scan ∅ bi bj bs)))
                  (besti (scan_row i blo bhi j2len js (Scan ∅ bi bj bs)))
                  (bestj (scan_row i blo bhi j2len js (Scan ∅ bi bj bs)))
                  (bestsize (scan_row i blo bhi j2len js (Scan ∅ bi bj bs)))).
    destruct (scan_rows a b blo bhi (seq (S i) n) _ _ _ _) as [[bi' bj'] bs'].
    destruct IH as [? ?]; [lia|done|done|done|]. lia.
Qed.

Lemma extend_left_bounds (alo blo : nat) :
  ∀ bi bj bs,
    alo ≤ bi →
    let '(bi', _, bs') := extend_left a b alo blo bi bj bs in
    alo ≤ bi' ∧ bi' + bs' = bi + bs.
Proof.
  induction bi as [|i' IH]; intros bj bs Hlo; simpl; [lia|].
  destruct bj as [|j']; [lia|].
  destruct ((alo <? S i') && (blo <? S j') && bool_decide (a !! i' = b !! j'))
    eqn:Hc; [|lia].
  apply andb_prop in Hc as [Hc _]. apply andb_prop in Hc as [Hc _].
  apply Nat.ltb_lt in Hc.
  specialize (IH j' (S bs)).
  destruct (extend_left a b alo blo i' j' (S bs)) as [[bi' bj'] bs'].
  destruct IH as [? ?]; lia.
Qed.

Lemma extend_right_bounds (ahi bhi bi bj : nat) :
  ∀ n bs, bi + bs ≤ ahi → bi + extend_right a b n ahi bhi bi bj bs ≤ ahi.
Proof.
  induction n as [|n IH]; intros bs Hhi; simpl; [done|].
  destruct ((bi + bs <? ahi) && (bj + bs <? bhi)
            && bool_decide (a !! (bi + bs) = b !! (bj + bs))) eqn:Hc; [|done].
  apply andb_prop in Hc as [Hc _]. apply andb_prop in Hc as [Hc _].
  apply Nat.ltb_lt in Hc. apply IH. lia.
Qed.

(** The block that [find_longest_match] returns lies in [a[alo:ahi]]. *)
Lemma find_longest_match_bounds (alo ahi blo bhi : nat) :
  alo ≤ ahi →
  let '(i, _, k) := find_longest_match a b alo ahi blo bhi in
  alo ≤ i ∧ i + k ≤ ahi.
Proof.
  intros Hle. unfold find_longest_match.
  pose proof (scan_rows_bounds alo blo bhi (ahi - alo) alo ∅ alo blo 0) as Hs.
  destruct (scan_rows a b blo bhi (seq alo (ahi - alo)) ∅ alo blo 0)
    as [[bi bj] bs].
  destruct Hs as [Hs1 Hs2]; [done|apply map_Forall_empty|done|lia|].
  pose proof (extend_left_bounds alo blo bi bj bs Hs1) as Hl.
  destruct (extend_left a b alo blo bi bj bs) as [[bi' bj'] bs'].
  destruct Hl as [Hl1 Hl2]. split; [done|].
  apply extend_right_bounds. lia.
Qed.

Lemma queue_weight_cons alo ahi blo bhi queue :
  queue_weight ((alo, ahi, blo, bhi) :: queue)
  = 2 * (ahi - alo) + 1 + queue_weight queue.
Proof. reflexivity. Qed.

Lemma blocks_loop_ends (n : nat) :
  ∀ queue blocks,
    queue_wf queue → queue_weight queue ≤ n →
    is_Some (blocks_loop a b n queue blocks).
Proof.
  induction n as [|n IH]; intros queue blocks Hwf Hw.
  - destruct queue as [|[[[alo ahi] blo] bhi] q]; simpl; [by eexists|].
    rewrite queue_weight_cons in Hw. lia.
  - destruct queue as [|[[[alo ahi] blo] bhi] q]; simpl; [by eexists|].
    apply Forall_cons in Hwf as [Hle Hwf].
    rewrite queue_weight_cons in Hw.
    pose proof (find_longest_match_bounds alo ahi blo bhi Hle) as Hb.
    destruct (find_longest_match a b alo ahi blo bhi) as [[i j] k].
    destruct Hb as [Hb1 Hb2].
    destruct (k =? 0) eqn:Hk; [apply IH; [done|lia]|].
    apply Nat.eqb_neq in Hk.
    apply IH.
    + destruct ((i + k <? ahi) && (j + k <? bhi));
        destruct ((alo <? i) && (blo <? j));
        repeat (apply Forall_cons; split); try done; lia.
    + destruct ((i + k <? ahi) && (j + k <? bhi));
        destruct ((alo <? i) && (blo <? j));
        rewrite ?queue_weight_cons; lia.
Qed.

(** [get_matching_blocks] runs its loop to the end: the queue is empty
    within [rounds] rounds. *)
Lemma get_matching_blocks_ends :
  is_Some (blocks_loop a b (rounds a) [(0, length a, 0, length b)] []).
Proof.
  apply blocks_loop_ends.
  - apply Forall_cons. split; [lia|constructor].
  - rewrite queue_weight_cons. unfold rounds, queue_weight. simpl. lia.
Qed.
End difflib_facts.

(** ** The duplicate test *)

Section duplicate_test.
Context (self : JobDeduplicator).

Lemma are_jobs_duplicate_same_id job1 job2 :
  dict_get (job_id job1) VNone = dict_get (job_id job2) VNone →
  are_jobs_duplicate self job1 job2 = (true, ExactIDMatch).
Proof.
  intros Hid. unfold are_jobs_duplicate. by rewrite bool_decide_eq_true_2.
Qed.

(** C10: two jobs without the key [id] are duplicates by the id rule,
    with the reason "Exact ID match", whatever their other fields
    hold. *)
Theorem are_jobs_duplicate_no_id job1 job2 :
  job_id job1 = None → job_id job2 = None →
  are_jobs_duplicate self job1 job2 = (true, ExactIDMatch)
  ∧ reason_text ExactIDMatch = Some "Exact ID match".
Proof.
  intros H1 H2. split; [|reflexivity].
  apply are_jobs_duplicate_same_id. by rewrite H1, H2.
Qed.

(** C3, amended: when the two ids differ and the company of either job
    normalizes to "nan", "none" or the empty string, the jobs are not
    duplicates, whatever their titles. *)
Theorem are_jobs_duplicate_invalid_company job1 job2 :
  dict_get (job_id job1) VNone ≠ dict_get (job_id job2) VNone →
  company_of job1 ∈ ["nan"; "none"; ""] ∨ company_of job2 ∈ ["nan"; "none"; ""] →
  are_jobs_duplicate self job1 job2 = (false, MissingOrInvalidCompany).
Proof.
  intros Hid Hc. unfold are_jobs_duplicate.
  rewrite bool_decide_eq_false_2 by done.
  fold (company_of job1) (company_of job2).
  assert (invalid (company_of job1) || invalid (company_of job2) = true) as ->;
    [|done].
  unfold invalid. destruct Hc as [Hc|Hc].
  - by rewrite (bool_decide_eq_true_2 _ Hc).
  - rewrite (bool_decide_eq_true_2 _ Hc). apply orb_true_r.
Qed.

(** C4, amended: the id rule, the company rules, the title-validity rule
    and the exact-title rule give the same verdict in both orders of the
    two jobs; when the pair gets as far as the similarity test, the
    verdict is the same in both orders provided the threshold test on
    the similarity of the normalized titles comes out the same in both
    orders. *)
Theorem are_jobs_duplicate_sym job1 job2 :
  (reaches_similarity job1 job2 = true →
   Qle_bool (title_threshold self)
     (calculate_similarity (title_of job1) (title_of job2))
   = Qle_bool (title_threshold self)
       (calculate_similarity (title_of job2) (title_of job1))) →
  (are_jobs_duplicate self job1 job2).1 = (are_jobs_duplicate self job2 job1).1.
Proof.
  unfold are_jobs_duplicate, reaches_similarity.
  fold (company_of job1) (company_of job2) (title_of job1) (title_of job2).
  rewrite (bool_decide_ext (dict_get (job_id job2) VNone = dict_get (job_id job1) VNone)
             (dict_get (job_id job1) VNone = dict_get (job_id job2) VNone))
    by (split; congruence).
  case_bool_decide; [done|].
  rewrite (orb_comm (invalid (company_of job2))).
  destruct (invalid (company_of job1) || invalid (company_of job2)); [done|].
  rewrite (bool_decide_ext (company_of job2 = company_of job1)
             (company_of job1 = company_of job2)) by (split; congruence).
  case_bool_decide; [|done]. simpl.
  rewrite (orb_comm (invalid (title_of job2))).
  destruct (invalid (title_of job1) || invalid (title_of job2)); [done|].
  rewrite (bool_decide_ext (title_of job2 = title_of job1)
             (title_of job1 = title_of job2)) by (split; congruence).
  case_bool_decide; [done|]. simpl.
  intros Hsim. rewrite (Hsim eq_refl).
  by destruct (Qle_bool (title_threshold self)
                (calculate_similarity (title_of job2) (title_of job1))).
Qed.
End duplicate_test.

(** C10 on two postings without [id], of different companies. *)
Lemma are_jobs_duplicate_no_id_witness :
  are_jobs_duplicate default_deduplicator anonymous_1 anonymous_2
  = (true, ExactIDMatch)
  ∧ reason_text ExactIDMatch = Some "Exact ID match".
Proof.
  apply (are_jobs_duplicate_no_id default_deduplicator anonymous_1 anonymous_2);
    reflexivity.
Defined.

(** C3, as stated, fails: two jobs with the company "nan" and one id are
    duplicates by the id rule. *)
Lemma invalid_company_duplicate :
  company_of nan_posting_1 = "nan"
  ∧ title_of nan_posting_1 ≠ title_of nan_posting_2
  ∧ are_jobs_duplicate default_deduplicator nan_posting_1 nan_posting_2
    = (true, ExactIDMatch).
Proof. split; [reflexivity|]. split; [discriminate|reflexivity]. Qed.

(** C3, amended, on a posting whose company is "nan" and one of another
    id. *)
Lemma are_jobs_duplicate_invalid_company_witness :
  are_jobs_duplicate default_deduplicator nan_posting_1 uiux_posting
  = (false, MissingOrInvalidCompany).
Proof.
  apply (are_jobs_duplicate_invalid_company default_deduplicator
           nan_posting_1 uiux_posting).
  - discriminate.
  - left. vm_compute. apply list_elem_of_here.
Defined.

(** C4, as stated, fails: the similarity of "ui/ux design internship" to
    "visual design internship" is 38/47, below 0.85, and in the other
    order 40/47, above it; so the verdict depends on the order. *)
Lemma are_jobs_duplicate_order_dependent :
  reaches_similarity uiux_posting visual_posting = true
  ∧ calculate_similarity (title_of uiux_posting) (title_of visual_posting) = (38 # 47)%Q
  ∧ calculate_similarity (title_of visual_posting) (title_of uiux_posting) = (40 # 47)%Q
  ∧ are_jobs_duplicate default_deduplicator uiux_posting visual_posting
    = (false, DifferentRoles "figma")
  ∧ are_jobs_duplicate default_deduplicator visual_posting uiux_posting
    = (true, SimilarTitles "figma" (40 # 47)).
Proof. vm_compute. repeat split. Qed.

(** C4, amended, on the first two jobs of the self-test, whose titles are
    similar in both orders. *)
Lemma are_jobs_duplicate_sym_witness :
  reaches_similarity (posting "1" "Figma" "Product Design Intern" 10)
    (posting "2" "Figma" "Product Design Internship" 8) = true
  ∧ (are_jobs_duplicate default_deduplicator
       (posting "1" "Figma" "Product Design Intern" 10)
       (posting "2" "Figma" "Product Design Internship" 8)).1
    = (are_jobs_duplicate default_deduplicator
         (posting "2" "Figma" "Product Design Internship" 8)
         (posting "1" "Figma" "Product Design Intern" 10)).1.
Proof.
  split; [vm_compute; reflexivity|].
  apply (are_jobs_duplicate_sym default_deduplicator
           (posting "1" "Figma" "Product Design Intern" 10)
           (posting "2" "Figma" "Product Design Internship" 8)).
  intros _. vm_compute. reflexivity.
Defined.

(** ** The deduplication loop *)

Section deduplicate_facts.
Context (self : JobDeduplicator).

(** The inner loop finds the first entry that the incoming job
    duplicates. *)
Lemma scan_unique_find job unique_jobs :
  ∀ rest,
    scan_unique self job rest unique_jobs
    = match list_find (λ e, is_dup self job e = true) rest with
      | None => (false, unique_jobs)
      | Some (_, e) =>
          if (score_of e <? score_of job)%Z
          then (true, list_remove e unique_jobs ++ [job])
          else (true, unique_jobs)
      end.
Proof.
  induction rest as [|e rest IH]; simpl; [done|].
  fold (is_dup self job e).
  unfold list_find; simpl; fold (list_find (λ e, is_dup self job e = true) rest).
  destruct (decide (is_dup self job e = true)) as [He|He].
  - by rewrite He.
  - apply not_true_is_false in He. rewrite He, IH.
    destruct (list_find _ rest) as [[i x]|]; done.
Qed.

(** [remove] takes out the entry that was matched. *)
Lemma list_remove_found (P : Job → Prop) `{!∀ x, Decision (P x)} l i e :
  list_find P l = Some (i, e) → list_remove e l = delete i l.
Proof.
  revert i. induction l as [|y l IH]; intros i Hf; [done|].
  apply list_find_Some in Hf as (Hi & HP & Hbefore).
  destruct i as [|i]; simpl in *.
  - injection Hi as ->. by rewrite decide_True.
  - rewrite decide_False.
    + f_equal. apply IH. apply list_find_Some. split; [done|]. split; [done|].
      intros j z Hj Hlt. apply (Hbefore (S j) z); [done|lia].
    + intros ->. apply (Hbefore 0 e); [done|lia|done].
Qed.

Lemma dedup_step_find unique_jobs job :
  dedup_step self unique_jobs job
  = match list_find (λ e, is_dup self job e = true) unique_jobs with
    | None => unique_jobs ++ [job]
    | Some (i, e) =>
        if (score_of e <? score_of job)%Z
        then delete i unique_jobs ++ [job]
        else unique_jobs
    end.
Proof.
  unfold dedup_step. rewrite scan_unique_find.
  destruct (list_find _ unique_jobs) as [[i e]|] eqn:Hf; [|done].
  rewrite (list_remove_found _ _ _ _ Hf).
  by destruct (score_of e <? score_of job)%Z.
Qed.

Lemma deduplicate_fold jobs :
  deduplicate self jobs = fold_left (dedup_step self) jobs [].
Proof. by destruct jobs. Qed.

Lemma dedup_step_sublist unique_jobs job seen :
  unique_jobs `sublist_of` seen →
  dedup_step self unique_jobs job `sublist_of` seen ++ [job].
Proof.
  intros Hsub. rewrite dedup_step_find.
  destruct (list_find _ unique_jobs) as [[i e]|].
  - destruct (score_of e <? score_of job)%Z.
    + apply sublist_app; [|done]. by etrans; [apply sublist_delete|].
    + by apply sublist_inserts_r.
  - by apply sublist_app.
Qed.

Lemma fold_dedup_sublist jobs :
  ∀ unique_jobs seen,
    unique_jobs `sublist_of` seen →
    fold_left (dedup_step self) jobs unique_jobs `sublist_of` seen ++ jobs.
Proof.
  induction jobs as [|job jobs IH]; intros unique_jobs seen Hsub; simpl.
  - by rewrite app_nil_r.
  - rewrite (cons_middle job seen jobs), app_assoc.
    apply IH. by apply dedup_step_sublist.
Qed.


Lemma deduplicate_elem_of jobs job :
  job ∈ deduplicate self jobs → job ∈ jobs.
Proof.
  apply sublist_subseteq. rewrite deduplicate_fold.
  by apply (fold_dedup_sublist jobs [] []).
Qed.

Lemma settled_snoc unique_jobs job :
  settled self unique_jobs →
  Forall (λ e, ¬ is_dup self job e = true) unique_jobs →
  settled self (unique_jobs ++ [job]).
Proof.
  intros Hs Hnew i j x y Hij Hx Hy.
  destruct (decide (j < length unique_jobs)) as [Hj|Hj].
  - rewrite lookup_app_l in Hx by lia. rewrite lookup_app_l in Hy by lia.
    by apply (Hs i j).
  - apply lookup_lt_Some in Hy as Hlen. rewrite length_app in Hlen.
    simpl in Hlen. assert (j = length unique_jobs) as -> by lia.
    rewrite lookup_app_l in Hx by lia.
    rewrite list_lookup_middle in Hy by done. injection Hy as <-.
    apply not_true_is_false.
    rewrite Forall_forall in Hnew. apply Hnew.
    by apply list_elem_of_lookup_2 with i.
Qed.

Lemma settled_prefix unique_jobs later job :
  settled self (unique_jobs ++ job :: later) →
  Forall (λ e, ¬ is_dup self job e = true) unique_jobs.
Proof.
  intros Hs. apply list.Forall_forall. intros e He.
  apply list_elem_of_lookup in He as [i Hi].
  apply lookup_lt_Some in Hi as Hlt.
  rewrite (Hs i (length unique_jobs) e job); [done|done| |].
  - by rewrite lookup_app_l.
  - by rewrite list_lookup_middle.
Qed.

(** On a settled list every round appends: the loop rebuilds it. *)
Lemma fold_dedup_settled later :
  ∀ unique_jobs,
    settled self (unique_jobs ++ later) →
    fold_left (dedup_step self) later unique_jobs = unique_jobs ++ later.
Proof.
  induction later as [|job later IH]; intros unique_jobs Hs; simpl.
  - by rewrite app_nil_r.
  - rewrite dedup_step_find.
    pose proof (settled_prefix _ _ _ Hs) as Hnone.
    apply (list_find_None (λ e, is_dup self job e = true)) in Hnone.
    rewrite Hnone.
    rewrite IH; rewrite <- app_assoc; done.
Qed.

(** When no later job scores more than an entry, no entry is ever
    replaced, and the list stays settled. *)
Lemma fold_dedup_descending jobs :
  ∀ unique_jobs,
    score_descending jobs = true →
    (∀ e job, e ∈ unique_jobs → job ∈ jobs → (score_of job ≤ score_of e)%Z) →
    settled self unique_jobs →
    settled self (fold_left (dedup_step self) jobs unique_jobs).
Proof.
  induction jobs as [|job jobs IH]; intros unique_jobs Hdesc Hscore Hs;
    simpl; [done|].
  simpl in Hdesc. apply andb_prop in Hdesc as [Hjob Hdesc].
  rewrite forallb_forall in Hjob.
  rewrite dedup_step_find.
  destruct (list_find _ unique_jobs) as [[i e]|] eqn:Hf.
  - apply list_find_Some in Hf as (Hi & _ & _).
    assert (score_of job ≤ score_of e)%Z as Hle.
    { apply Hscore; [by apply list_elem_of_lookup_2 with i|apply list_elem_of_here]. }
    apply Z.ltb_ge in Hle. rewrite Hle.
    apply IH; [done| |done].
    intros e' job' He' Hjob'. apply Hscore; [done|by apply list_elem_of_further].
  - apply list_find_None in Hf.
    apply IH; [done| |by apply settled_snoc].
    intros e' job' He' Hjob'. apply elem_of_app in He' as [He'|He'].
    + apply Hscore; [done|by apply list_elem_of_further].
    + apply list_elem_of_singleton in He' as ->.
      apply Z.leb_le, Hjob. by apply list_elem_of_In.
Qed.

(** C1, amended: on an input whose scores do not increase along the
    list, as [filter_jobs] returns it, no job of the output of
    [deduplicate] is judged a duplicate of a job before it in that
    output, and [deduplicate] run on that output returns it unchanged. *)
Theorem deduplicate_idempotent_descending jobs :
  score_descending jobs = true →
  settled self (deduplicate self jobs)
  ∧ deduplicate self (deduplicate self jobs) = deduplicate self jobs.
Proof.
  intros Hdesc.
  assert (settled self (deduplicate self jobs)) as Hs.
  { rewrite deduplicate_fold. apply fold_dedup_descending; [done| |].
    - intros e job He. by apply elem_of_nil in He.
    - intros i j x y _ Hx. by rewrite lookup_nil in Hx. }
  split; [done|].
  rewrite (deduplicate_fold (deduplicate self jobs)).
  by rewrite (fold_dedup_settled _ []).
Qed.
End deduplicate_facts.


(** C1, as stated, fails: on [chain_jobs] the third job replaces the
    first, which has its id, and lands after the second, which it
    duplicates; a second run drops it. *)
Lemma deduplicate_not_idempotent :
  deduplicate default_deduplicator chain_jobs
  = [ posting "lever_12" "Stripe" "UX Research Intern" 7;
      posting "lever_9" "Stripe" "UX Research Intern" 6 ]
  ∧ is_dup default_deduplicator
      (posting "lever_9" "Stripe" "UX Research Intern" 6)
      (posting "lever_12" "Stripe" "UX Research Intern" 7) = true
  ∧ deduplicate default_deduplicator (deduplicate default_deduplicator chain_jobs)
    = [ posting "lever_12" "Stripe" "UX Research Intern" 7 ]
  ∧ deduplicate default_deduplicator (deduplicate default_deduplicator chain_jobs)
    ≠ deduplicate default_deduplicator chain_jobs.
Proof. vm_compute. repeat split. discriminate. Qed.

(** C1, amended, on the jobs of the self-test in descending order of
    score. *)
Lemma deduplicate_idempotent_descending_witness :
  settled default_deduplicator (deduplicate default_deduplicator test_jobs_sorted)
  ∧ deduplicate default_deduplicator (deduplicate default_deduplicator test_jobs_sorted)
    = deduplicate default_deduplicator test_jobs_sorted.
Proof.
  apply (deduplicate_idempotent_descending default_deduplicator test_jobs_sorted).
  vm_compute. reflexivity.
Defined.

(** ** Substrings and slices *)

Lemma append_nil_l (s : string) : "" +:+ s = s.
Proof. reflexivity. Qed.

Lemma append_cons (c : ascii) (s t : string) :
  String c s +:+ t = String c (s +:+ t).
Proof. reflexivity. Qed.

Lemma prefix_spec (k t : string) :
  String.prefix k t = true ↔ ∃ post, t = k +:+ post.
Proof.
  revert t. induction k as [|c k IH]; intros t; simpl.
  - destruct t; split; eauto.
  - setoid_rewrite append_cons. destruct t as [|d t]; simpl.
    + split; [done|]. by intros [post ?].
    + destruct (ascii_dec c d) as [->|Hne].
      * rewrite IH. split; intros [post Hp]; exists post; congruence.
      * split; [done|]. intros [post Hp]. congruence.
Qed.

Lemma py_in_nil (k : string) : py_in k "" = String.prefix k "".
Proof. unfold py_in. apply orb_false_r. Qed.

Lemma py_in_cons (k : string) (d : ascii) (t : string) :
  py_in k (String d t) = String.prefix k (String d t) || py_in k t.
Proof. reflexivity. Qed.

Lemma py_in_spec (k t : string) : py_in k t = true ↔ substring_of k t.
Proof.
  unfold substring_of. induction t as [|d t IH].
  - rewrite py_in_nil, prefix_spec. split.
    + intros [post Hp]. by exists "", post.
    + intros (pre & post & Hp). destruct pre; [by exists post|done].
  - rewrite py_in_cons, orb_true_iff, prefix_spec, IH. split.
    + intros [[post Hp]|(pre & post & Hp)].
      * by exists "", post.
      * exists (String d pre), post. by rewrite append_cons, Hp.
    + intros (pre & post & Hp). destruct pre as [|e pre].
      * left. by exists post.
      * right. exists pre, post. rewrite append_cons in Hp. congruence.
Qed.

Lemma py_slice_to_spec (n : nat) (s : string) :
  (∃ rest, s = py_slice_to n s +:+ rest)
  ∧ String.length (py_slice_to n s) = n `min` String.length s.
Proof.
  revert s. induction n as [|n IH]; intros s.
  - split; [by exists s|done].
  - destruct s as [|c s]; simpl; [split; [by exists ""|done]|].
    destruct (IH s) as [[rest Hr] Hl]. split; [|by rewrite Hl].
    exists rest. by rewrite append_cons, <- Hr.
Qed.

(** ** The keyword filter *)

Section keyword_filter_facts.
Context (self : KeywordFilter).

Lemma first_hit_spec keywords text :
  first_hit keywords text = true ↔ ∃ k, k ∈ keywords ∧ substring_of k text.
Proof.
  induction keywords as [|k keywords IH]; simpl.
  - split; [done|]. intros (k & Hk & _). by apply elem_of_nil in Hk.
  - destruct (py_in k text) eqn:Hk.
    + split; [|done]. intros _. exists k. split; [apply list_elem_of_here|].
      by apply py_in_spec.
    + rewrite IH. split.
      * intros (k' & Hk' & Hs). exists k'. split; [by apply list_elem_of_further|done].
      * intros (k' & Hk' & Hs). apply elem_of_cons in Hk' as [->|Hk'].
        -- apply py_in_spec in Hs. congruence.
        -- by exists k'.
Qed.

(** C6: [is_internship] holds exactly when some internship keyword is a
    substring of the lower-cased title, or one of the first three
    internship keywords is a substring of the first 500 characters of
    the lower-cased description. *)
Theorem is_internship_spec job :
  (is_internship self job = true ↔
     (∃ k, k ∈ internship_keywords self ∧ substring_of k (lowered (title job)))
     ∨ (∃ k, k ∈ take 3 (internship_keywords self)
             ∧ substring_of k (py_slice_to 500 (lowered (description job)))))
  ∧ (∃ rest, lowered (description job)
             = py_slice_to 500 (lowered (description job)) +:+ rest)
  ∧ String.length (py_slice_to 500 (lowered (description job)))
    = 500 `min` String.length (lowered (description job)).
Proof.
  split; [|apply py_slice_to_spec].
  unfold is_internship. rewrite <- !first_hit_spec.
  destruct (first_hit (internship_keywords self) _);
    destruct (first_hit (take 3 (internship_keywords self)) _);
    intuition congruence.
Qed.

Lemma score_loop_spec weight text keywords :
  ∀ score found,
    score_loop weight keywords text score found
    = ((score + weight * Z.of_nat (length (hits keywords text)))%Z,
       found ++ hits keywords text).
Proof.
  unfold hits.
  induction keywords as [|k keywords IH]; intros score found; simpl.
  - by rewrite Z.mul_0_r, Z.add_0_r, app_nil_r.
  - destruct (py_in k text) eqn:Hk.
    + rewrite filter_cons_True by done. rewrite IH, <- app_assoc. simpl.
      f_equal. lia.
    + rewrite filter_cons_False by (by rewrite Hk). apply IH.
Qed.

Lemma calculate_relevance_score_eq job :
  calculate_relevance_score self job
  = let score :=
      (3 * Z.of_nat (length (hits (include_title self) (lowered (title job))))
       - 10 * Z.of_nat (length (hits (exclude_title self) (lowered (title job))))
       + 1 * Z.of_nat (length (hits (include_description self)
                                 (lowered (description job)))))%Z in
    (score,
     {| title_matches := hits (include_title self) (lowered (title job));
        title_excludes := hits (exclude_title self) (lowered (title job));
        description_matches :=
          hits (include_description self) (lowered (description job));
        total_score := score |}).
Proof.
  unfold calculate_relevance_score. rewrite !score_loop_spec. simpl.
  f_equal; [lia|f_equal; lia].
Qed.
End keyword_filter_facts.

Lemma hits_insert (l1 l2 : list string) (k text : string) :
  substring_of (py_lower k) text →
  length (hits (py_lower <$> l1 ++ k :: l2) text)
  = S (length (hits (py_lower <$> l1 ++ l2) text)).
Proof.
  intros Hk. apply py_in_spec in Hk. unfold hits.
  rewrite !fmap_app, fmap_cons, !filter_app, filter_cons_True by done.
  rewrite !length_app. simpl. lia.
Qed.

(** C5: the score is 3 for each [include_title] keyword found in the
    lower-cased title, minus 10 for each [exclude_title] keyword found in
    it, plus 1 for each [include_description] keyword found in the
    lower-cased description; so a keyword that matches, added to the
    configuration at any place of its list, moves the score by exactly
    +3, -10 and +1. *)
Theorem calculate_relevance_score_weights (self : KeywordFilter)
    (config : Config) (job : Job) :
  (calculate_relevance_score self job).1
  = (3 * Z.of_nat (length (hits (include_title self) (lowered (title job))))
     - 10 * Z.of_nat (length (hits (exclude_title self) (lowered (title job))))
     + 1 * Z.of_nat (length (hits (include_description self)
                               (lowered (description job)))))%Z
  ∧ (∀ l1 k l2,
       substring_of (py_lower k) (lowered (title job)) →
       (calculate_relevance_score
          (KeywordFilter_init (with_include_title config (l1 ++ k :: l2))) job).1
       = ((calculate_relevance_score
             (KeywordFilter_init (with_include_title config (l1 ++ l2))) job).1
          + 3)%Z)
  ∧ (∀ l1 k l2,
       substring_of (py_lower k) (lowered (title job)) →
       (calculate_relevance_score
          (KeywordFilter_init (with_exclude_title config (l1 ++ k :: l2))) job).1
       = ((calculate_relevance_score
             (KeywordFilter_init (with_exclude_title config (l1 ++ l2))) job).1
          - 10)%Z)
  ∧ (∀ l1 k l2,
       substring_of (py_lower k) (lowered (description job)) →
       (calculate_relevance_score
          (KeywordFilter_init (with_include_description config (l1 ++ k :: l2))) job).1
       = ((calculate_relevance_score
             (KeywordFilter_init (with_include_description config (l1 ++ l2))) job).1
          + 1)%Z).
Proof.
  split; [by rewrite calculate_relevance_score_eq|].
  repeat split; intros l1 k l2 Hk; rewrite !calculate_relevance_score_eq;
    simpl; rewrite (hits_insert l1 l2 k _ Hk); lia.
Qed.

(** C5 on the first job of the self-test: "UX" added to [include_title]
    between "design" and "intern". *)
Lemma calculate_relevance_score_weights_witness :
  (calculate_relevance_score
     (KeywordFilter_init (with_include_title keywords_yml (["design"] ++ "UX" :: ["intern"])))
     ux_intern).1
  = ((calculate_relevance_score
        (KeywordFilter_init (with_include_title keywords_yml (["design"] ++ ["intern"])))
        ux_intern).1 + 3)%Z.
Proof.
  destruct (calculate_relevance_score_weights (KeywordFilter_init keywords_yml)
              keywords_yml ux_intern) as (_ & Hinclude & _ & _).
  apply (Hinclude ["design"] "UX" ["intern"]).
  apply py_in_spec. vm_compute. reflexivity.
Defined.

(** C6 on the first job of the self-test: "intern" is in its title. *)
Lemma is_internship_spec_witness :
  is_internship (KeywordFilter_init keywords_yml) ux_intern = true.
Proof.
  destruct (is_internship_spec (KeywordFilter_init keywords_yml) ux_intern)
    as [[_ Hif] _].
  apply Hif. left. exists "intern". split.
  - apply list_elem_of_here.
  - apply py_in_spec. vm_compute. reflexivity.
Defined.

(** ** The stable sort *)

Section sort_facts.
Context {A : Type} (key : A → Z).

Lemma insert_desc_perm x l : insert_desc key x l ≡ₚ x :: l.
Proof.
  induction l as [|y l IH]; simpl; [done|].
  destruct (key x <? key y)%Z; [|done].
  by rewrite IH, Permutation_swap.
Qed.

Lemma sort_desc_perm l : sort_desc key l ≡ₚ l.
Proof.
  induction l as [|x l IH]; simpl; [done|].
  by rewrite insert_desc_perm, IH.
Qed.

Lemma insert_desc_sorted x l :
  StronglySorted (λ u v, (key v ≤ key u)%Z) l →
  StronglySorted (λ u v, (key v ≤ key u)%Z) (insert_desc key x l).
Proof.
  induction 1 as [|y l Hs IH Hy]; simpl; [by repeat constructor|].
  destruct (key x <? key y)%Z eqn:Hxy.
  - apply Z.ltb_lt in Hxy. constructor; [done|].
    rewrite insert_desc_perm. constructor; [lia|done].
  - apply Z.ltb_ge in Hxy. constructor; [by constructor|].
    constructor; [done|].
    eapply Forall_impl; [exact Hy|]. intros z Hz. simpl in Hz. lia.
Qed.

Lemma sort_desc_sorted l :
  StronglySorted (λ u v, (key v ≤ key u)%Z) (sort_desc key l).
Proof.
  induction l as [|x l IH]; simpl; [constructor|].
  by apply insert_desc_sorted.
Qed.

(** Elements of equal key keep their order: the sort is stable. *)
Lemma insert_desc_stable s x l :
  filter (λ u, key u = s) (insert_desc key x l)
  = filter (λ u, key u = s) (x :: l).
Proof.
  induction l as [|y l IH]; simpl; [done|].
  destruct (key x <? key y)%Z eqn:Hxy; [|done].
  apply Z.ltb_lt in Hxy.
  rewrite (filter_cons _ y), IH, !filter_cons.
  repeat case_decide; (done || lia).
Qed.

Lemma sort_desc_stable s l :
  filter (λ u, key u = s) (sort_desc key l) = filter (λ u, key u = s) l.
Proof.
  induction l as [|x l IH]; simpl; [done|].
  by rewrite insert_desc_stable, !filter_cons, IH.
Qed.
End sort_facts.

(** ** The batch filter *)

Section filter_jobs_facts.
Context (self : KeywordFilter).

Lemma scored_eq job score breakdown :
  calculate_relevance_score self job = (score, breakdown) →
  scored self job = attach job score breakdown.
Proof. intros Hc. unfold scored. by rewrite Hc. Qed.

Lemma filter_loop_spec require_internship jobs :
  ∀ filtered_jobs,
    filter_loop self require_internship jobs filtered_jobs
    = filtered_jobs
      ++ (scored self <$> filter (λ job, passes self require_internship job = true) jobs).
Proof.
  induction jobs as [|job jobs IH]; intros filtered_jobs; simpl.
  - by rewrite app_nil_r.
  - destruct (passes self require_internship job) eqn:Hp.
    + rewrite filter_cons_True by done. unfold passes in Hp.
      apply andb_prop in Hp as [Hgate Hmin].
      assert (require_internship && negb (is_internship self job) = false) as ->.
      { by destruct require_internship, (is_internship self job). }
      destruct (calculate_relevance_score self job) as [score breakdown] eqn:Hc.
      simpl in Hmin.
      by rewrite Hmin, IH, fmap_cons, <- app_assoc, (scored_eq _ _ _ Hc).
    + rewrite filter_cons_False by (by rewrite Hp). unfold passes in Hp.
      destruct (require_internship && negb (is_internship self job)) eqn:Hg;
        [apply IH|].
      destruct (calculate_relevance_score self job) as [score breakdown].
      simpl in Hp.
      assert ((minimum_score self <=? score)%Z = false) as ->; [|apply IH].
      destruct require_internship, (is_internship self job); simpl in *;
        congruence.
Qed.

Lemma sort_by_score_scored jobs :
  sort_by_score (scored self <$> jobs)
  = Some (sort_desc score_of (scored self <$> jobs)).
Proof.
  unfold sort_by_score.
  assert (forallb (λ x, bool_decide (is_Some (relevance_score x)))
            (scored self <$> jobs) = true) as ->; [|done].
  apply forallb_forall. intros x Hx.
  apply list_elem_of_In, list_elem_of_fmap in Hx as (job & -> & _).
  apply bool_decide_eq_true_2. by eexists.
Qed.

Lemma filter_jobs_eq jobs require_internship :
  filter_jobs self jobs require_internship
  = Some (sort_desc score_of
            (scored self
               <$> filter (λ job, passes self require_internship job = true) jobs)).
Proof.
  unfold filter_jobs. rewrite filter_loop_spec. simpl.
  apply sort_by_score_scored.
Qed.

(** C7: [filter_jobs] returns the jobs that pass the internship gate,
    when it is required, and score at least the minimum, each with its
    score and breakdown attached, in descending order of score, jobs of
    equal score in the order they had in the input. *)
Theorem filter_jobs_spec jobs require_internship :
  let kept :=
    scored self <$> filter (λ job, passes self require_internship job = true) jobs in
  ∃ out,
    filter_jobs self jobs require_internship = Some out
    ∧ out ≡ₚ kept
    ∧ StronglySorted (λ x y, (score_of y ≤ score_of x)%Z) out
    ∧ (∀ s, filter (λ job, score_of job = s) out
            = filter (λ job, score_of job = s) kept)
    ∧ (∀ job, passes self require_internship job = true ↔
              (require_internship = true → is_internship self job = true)
              ∧ (minimum_score self ≤ (calculate_relevance_score self job).1)%Z)
    ∧ (∀ job, relevance_score (scored self job)
              = Some (calculate_relevance_score self job).1
              ∧ score_breakdown (scored self job)
                = Some (calculate_relevance_score self job).2).
Proof.
  intros kept. eexists. split; [apply filter_jobs_eq|]. fold kept.
  split; [apply sort_desc_perm|].
  split; [apply sort_desc_sorted|].
  split; [intros s; apply sort_desc_stable|].
  split; [|done].
  intros job. unfold passes.
  rewrite andb_true_iff, orb_true_iff, negb_true_iff, Z.leb_le.
  destruct require_internship; intuition congruence.
Qed.

Lemma scored_same_source_fields job : same_source_fields (scored self job) job.
Proof. by repeat split. Qed.

(** C8: a job that [filter_jobs] returns is a job of the input with its
    title, company, location, description, url, posted_date, source and
    id as they were; a job that [deduplicate] returns is a job of its
    input, all fields as they were. *)
Theorem pipeline_keeps_source_fields (dedup : JobDeduplicator) jobs
    require_internship :
  (∃ out,
     filter_jobs self jobs require_internship = Some out
     ∧ ∀ job', job' ∈ out → ∃ job, job ∈ jobs ∧ same_source_fields job' job)
  ∧ (∀ job', job' ∈ deduplicate dedup jobs →
             ∃ job, job ∈ jobs ∧ job' = job ∧ same_source_fields job' job).
Proof.
  split.
  - eexists. split; [apply filter_jobs_eq|].
    intros job' Hin. rewrite sort_desc_perm in Hin.
    apply list_elem_of_fmap in Hin as (job & -> & Hin).
    apply list_elem_of_filter in Hin as [_ Hin].
    exists job. split; [done|apply scored_same_source_fields].
  - intros job' Hin. exists job'.
    split; [by apply deduplicate_elem_of in Hin|]. by repeat split.
Qed.

(** C9: on the empty list [get_statistics] returns the zeroed
    statistics, and [deduplicate] and [filter_jobs] return the empty
    list; none of them raises. *)
Theorem empty_input (dedup : JobDeduplicator) (require_internship : bool) :
  get_statistics []
  = Some {| total := 0; average_score := 0; score_range := (0%Z, 0%Z);
            top_keywords := [] |}
  ∧ deduplicate dedup [] = []
  ∧ filter_jobs self [] require_internship = Some [].
Proof. done. Qed.
End filter_jobs_facts.

(** C7 on the first job of the self-test: it passes the gate and the
    threshold. *)
Lemma filter_jobs_spec_witness :
  passes (KeywordFilter_init keywords_yml) true ux_intern = true.
Proof.
  destruct (filter_jobs_spec (KeywordFilter_init keywords_yml) [ux_intern] true)
    as (out & _ & _ & _ & _ & Hpasses & _).
  apply Hpasses. split.
  - intros _. vm_compute. reflexivity.
  - vm_compute. discriminate.
Defined.

(** C8 on the jobs of the self-test of the deduplicator: the fourth job
    is returned as it came. *)
Lemma pipeline_keeps_source_fields_witness :
  ∃ job, job ∈ test_jobs
         ∧ posting "4" "Figma" "Engineering Intern" 7 = job
         ∧ same_source_fields (posting "4" "Figma" "Engineering Intern" 7) job.
Proof.
  destruct (pipeline_keeps_source_fields (KeywordFilter_init keywords_yml)
              default_deduplicator test_jobs true) as [_ Hdedup].
  apply Hdedup. vm_compute.
  apply list_elem_of_further, list_elem_of_here.
Defined.

(** ** More on the duplicate test and the deduplication loop *)

Lemma sublist_full_length {A} (l1 l2 : list A) :
  l1 `sublist_of` l2 → length l2 ≤ length l1 → l1 = l2.
Proof.
  induction 1 as [|x l1 l2 Hsub IH|x l1 l2 Hsub IH]; simpl; intros Hlen.
  - done.
  - f_equal. apply IH. lia.
  - apply sublist_length in Hsub. lia.
Qed.


Section deduplicate_more.
Context (self : JobDeduplicator).

(** X1: [deduplicate] returns at most as many jobs as it is given, so the
    number of removed duplicates that [main.py] logs is not negative; and
    when it removes none, the list it returns is the list it was given. *)
Theorem deduplicate_length jobs :
  length (deduplicate self jobs) ≤ length jobs
  ∧ (length (deduplicate self jobs) = length jobs → deduplicate self jobs = jobs).
Proof.
  assert (deduplicate self jobs `sublist_of` jobs) as Hsub.
  { rewrite deduplicate_fold. by apply (fold_dedup_sublist self jobs [] []). }
  split; [by apply sublist_length|].
  intros Hlen. apply sublist_full_length; [done|lia].
Qed.

Lemma dedup_step_nonempty unique_jobs job :
  dedup_step self unique_jobs job ≠ [].
Proof.
  rewrite dedup_step_find.
  destruct (list_find _ unique_jobs) as [[i e]|] eqn:Hf.
  - destruct (score_of e <? score_of job)%Z.
    + by destruct (delete i unique_jobs).
    + apply list_find_Some in Hf as [Hi _]. by destruct unique_jobs.
  - by destruct unique_jobs.
Qed.

Lemma fold_dedup_nonempty jobs :
  ∀ unique_jobs,
    unique_jobs ≠ [] → fold_left (dedup_step self) jobs unique_jobs ≠ [].
Proof.
  induction jobs as [|job jobs IH]; intros unique_jobs Hne; simpl; [done|].
  apply IH, dedup_step_nonempty.
Qed.

(** X2: [deduplicate] never empties a list: on a non-empty input its
    output is non-empty. *)
Theorem deduplicate_nonempty jobs :
  jobs ≠ [] → deduplicate self jobs ≠ [].
Proof.
  intros Hne. destruct jobs as [|job jobs]; [done|].
  rewrite deduplicate_fold. simpl. apply fold_dedup_nonempty, dedup_step_nonempty.
Qed.




(** X4: [deduplicate] removes nothing without a match: when no job of the
    input is judged a duplicate of a job before it, the output is the
    input. *)
Theorem deduplicate_settled_unchanged jobs :
  settled self jobs → deduplicate self jobs = jobs.
Proof.
  intros Hs. rewrite deduplicate_fold.
  by rewrite (fold_dedup_settled self jobs []).
Qed.

Lemma settled_distinct_ids jobs :
  settled self jobs → NoDup (id_of <$> jobs).
Proof.
  intros Hs. apply NoDup_alt. intros i j v Hi Hj.
  rewrite list_lookup_fmap in Hi, Hj.
  destruct (jobs !! i) as [x|] eqn:Hx; [|done].
  destruct (jobs !! j) as [y|] eqn:Hy; [|done].
  simpl in Hi, Hj. injection Hi as Hi. injection Hj as Hj.
  destruct (decide (i = j)) as [|Hne]; [done|exfalso].
  assert (is_dup self x y = true ∧ is_dup self y x = true) as [Hxy Hyx].
  { unfold is_dup. rewrite !are_jobs_duplicate_same_id; [done| |];
      unfold id_of in *; congruence. }
  destruct (decide (i < j)) as [Hlt|Hge].
  - rewrite (Hs i j x y Hlt Hx Hy) in Hyx. done.
  - assert (j < i) as Hlt by lia.
    rewrite (Hs j i y x Hlt Hy Hx) in Hxy. done.
Qed.

(** X5: on an input whose scores do not increase along the list, no two
    jobs of the output of [deduplicate] have the same [id] (two jobs
    without [id] count as having the same). *)
Theorem deduplicate_distinct_ids jobs :
  score_descending jobs = true →
  NoDup (id_of <$> deduplicate self jobs).
Proof.
  intros Hdesc. apply settled_distinct_ids.
  rewrite deduplicate_fold. apply fold_dedup_descending; [done| |].
  - intros e job He. by apply elem_of_nil in He.
  - intros i j x y _ Hx. by rewrite lookup_nil in Hx.
Qed.

(** X6: [find_duplicates] lists exactly the pairs of positions [i < k] of
    the input whose jobs, taken in that order, [are_jobs_duplicate]
    judges duplicates, each with the reason of that call. *)
Theorem find_duplicates_spec jobs job1 job2 reason :
  (job1, job2, reason) ∈ find_duplicates self jobs ↔
  ∃ i k, i < k ∧ jobs !! i = Some job1 ∧ jobs !! k = Some job2
         ∧ are_jobs_duplicate self job1 job2 = (true, reason).
Proof.
  induction jobs as [|job jobs IH]; simpl.
  - split; [intros H; by apply elem_of_nil in H|].
    intros (i & k & _ & Hi & _). by rewrite lookup_nil in Hi.
  - rewrite elem_of_app, list_elem_of_omap, IH. split.
    + intros [(x & Hx & Hsome)|(i & k & Hik & Hi & Hk & Hd)].
      * destruct (are_jobs_duplicate self job x) as [[] r] eqn:Hd; [|done].
        injection Hsome as <- <- <-.
        apply list_elem_of_lookup in Hx as [k Hk].
        exists 0, (S k). by repeat split; [lia|..].
      * exists (S i), (S k). by repeat split; [lia|..].
    + intros (i & k & Hik & Hi & Hk & Hd).
      destruct k as [|k]; [lia|]. simpl in Hk.
      destruct i as [|i]; simpl in Hi.
      * injection Hi as ->. left. exists job2.
        split; [by apply list_elem_of_lookup_2 with k|]. by rewrite Hd.
      * right. exists i, k. by repeat split; [lia|..].
Qed.

(** X7: two jobs are judged duplicates only if their ids are equal, or
    their normalized companies are equal and valid and their normalized
    titles are valid: jobs of different companies and different ids are
    never merged. *)
Theorem are_jobs_duplicate_only_if job1 job2 :
  is_dup self job1 job2 = true →
  id_of job1 = id_of job2
  ∨ (company_of job1 = company_of job2
     ∧ invalid (company_of job1) = false
     ∧ invalid (title_of job1) = false ∧ invalid (title_of job2) = false).
Proof.
  unfold is_dup, are_jobs_duplicate, id_of.
  fold (company_of job1) (company_of job2) (title_of job1) (title_of job2).
  case_bool_decide; [by left|].
  destruct (invalid (company_of job1)) eqn:Hc1; [done|].
  destruct (invalid (company_of job2)) eqn:Hc2; [done|]. simpl.
  case_bool_decide; [|done]. simpl.
  destruct (invalid (title_of job1)) eqn:Ht1; [done|].
  destruct (invalid (title_of job2)) eqn:Ht2; [done|]. simpl.
  intros _. by right.
Qed.
End deduplicate_more.

(** X2 on the jobs of the self-test. *)
Lemma deduplicate_nonempty_witness :
  deduplicate default_deduplicator test_jobs ≠ [].
Proof. apply (deduplicate_nonempty default_deduplicator test_jobs). discriminate. Defined.


(** X5 on the jobs of the self-test in descending order of score. *)
Lemma deduplicate_distinct_ids_witness :
  NoDup (id_of <$> deduplicate default_deduplicator test_jobs_sorted).
Proof.
  apply (deduplicate_distinct_ids default_deduplicator test_jobs_sorted).
  vm_compute. reflexivity.
Defined.

(** X7 on the first two jobs of the self-test. *)
Lemma are_jobs_duplicate_only_if_witness :
  id_of (posting "2" "Figma" "Product Design Internship" 8)
  = id_of (posting "1" "Figma" "Product Design Intern" 10)
  ∨ (company_of (posting "2" "Figma" "Product Design Internship" 8)
     = company_of (posting "1" "Figma" "Product Design Intern" 10)
     ∧ invalid (company_of (posting "2" "Figma" "Product Design Internship" 8)) = false
     ∧ invalid (title_of (posting "2" "Figma" "Product Design Internship" 8)) = false
     ∧ invalid (title_of (posting "1" "Figma" "Product Design Intern" 10)) = false).
Proof.
  apply (are_jobs_duplicate_only_if default_deduplicator).
  vm_compute. reflexivity.
Defined.

(** X4 on the first and the fourth job of the self-test, one company and
    two roles. *)
Lemma deduplicate_settled_unchanged_witness :
  deduplicate default_deduplicator
    [ posting "1" "Figma" "Product Design Intern" 10;
      posting "4" "Figma" "Engineering Intern" 7 ]
  = [ posting "1" "Figma" "Product Design Intern" 10;
      posting "4" "Figma" "Engineering Intern" 7 ].
Proof.
  apply (deduplicate_settled_unchanged default_deduplicator).
  intros [|[|i]] [|[|j]] x y Hlt Hx Hy; simpl in Hx, Hy; try lia; try done.
  injection Hx as <-. injection Hy as <-. vm_compute. reflexivity.
Defined.

(** ** The similarity ratio *)

Section ratio_facts.
Import difflib.
Context (a b : list ascii).

Lemma j2lenget_row_ok (blo j : nat) (j2len : gmap nat nat) :
  row_ok blo j2len → blo ≤ j → j2lenget j2len j + 1 ≤ j + 1 - blo.
Proof.
  intros Hrow Hj. destruct j as [|j']; simpl; [lia|].
  destruct (j2len !! j') as [v|] eqn:Hv; simpl; [|lia].
  destruct (Hrow _ _ Hv). lia.
Qed.

Lemma scan_row_bounds_b (i blo bhi : nat) (j2len : gmap nat nat) js :
  row_ok blo j2len →
  ∀ st,
    blo ≤ bestj st → bestj st + bestsize st ≤ bhi → row_ok blo (newj2len st) →
    let st' := scan_row i blo bhi j2len js st in
    blo ≤ bestj st' ∧ bestj st' + bestsize st' ≤ bhi ∧ row_ok blo (newj2len st').
Proof.
  intros Hprev.
  induction js as [|j js IH]; intros st Hlo Hhi Hrow; simpl; [done|].
  destruct (j <? blo) eqn:Hjlo; [by apply IH|]. apply Nat.ltb_ge in Hjlo.
  destruct (bhi <=? j) eqn:Hjhi; [done|]. apply Nat.leb_gt in Hjhi.
  pose proof (j2lenget_row_ok blo j j2len Hprev Hjlo) as Hk.
  assert (row_ok blo (<[j := j2lenget j2len j + 1]> (newj2len st))) as Hrow'.
  { apply map_Forall_insert_2; [lia|done]. }
  destruct (bestsize st <? j2lenget j2len j + 1).
  - apply IH; simpl; [lia|lia|done].
  - apply IH; simpl; done.
Qed.

Lemma scan_rows_bounds_b (blo bhi : nat) rows :
  ∀ (j2len : gmap nat nat) bi bj bs,
    row_ok blo j2len → blo ≤ bj → bj + bs ≤ bhi →
    let '(_, bj', bs') := scan_rows a b blo bhi rows j2len bi bj bs in
    blo ≤ bj' ∧ bj' + bs' ≤ bhi.
Proof.
  induction rows as [|i rows IH]; intros j2len bi bj bs Hprev Hlo Hhi; simpl.
  - done.
  - set (js := match a !! i with Some c => b2j_get b c | None => [] end).
    destruct (scan_row_bounds_b i blo bhi j2len js Hprev (Scan ∅ bi bj bs))
      as (H1 & H2 & H3); simpl; [done|done|apply map_Forall_empty|].
    by apply IH.
Qed.

Lemma extend_left_bounds_b (alo blo : nat) :
  ∀ bi bj bs,
    blo ≤ bj →
    let '(_, bj', bs') := extend_left a b alo blo bi bj bs in
    blo ≤ bj' ∧ bj' + bs' = bj + bs.
Proof.
  induction bi as [|i' IH]; intros bj bs Hlo; simpl; [lia|].
  destruct bj as [|j']; [lia|].
  destruct ((alo <? S i') && (blo <? S j') && bool_decide (a !! i' = b !! j'))
    eqn:Hc; [|lia].
  apply andb_prop in Hc as [Hc _]. apply andb_prop in Hc as [_ Hc].
  apply Nat.ltb_lt in Hc.
  specialize (IH j' (S bs)).
  destruct (extend_left a b alo blo i' j' (S bs)) as [[bi' bj'] bs'].
  destruct IH as [? ?]; lia.
Qed.

Lemma extend_right_bounds_b (ahi bhi bi bj : nat) :
  ∀ n bs, bj + bs ≤ bhi → bj + extend_right a b n ahi bhi bi bj bs ≤ bhi.
Proof.
  induction n as [|n IH]; intros bs Hhi; simpl; [done|].
  destruct ((bi + bs <? ahi) && (bj + bs <? bhi)
            && bool_decide (a !! (bi + bs) = b !! (bj + bs))) eqn:Hc; [|done].
  apply andb_prop in Hc as [Hc _]. apply andb_prop in Hc as [_ Hc].
  apply Nat.ltb_lt in Hc. apply IH. lia.
Qed.

(** The block that [find_longest_match] returns lies in [b[blo:bhi]]. *)
Lemma find_longest_match_bounds_b (alo ahi blo bhi : nat) :
  blo ≤ bhi →
  let '(_, j, k) := find_longest_match a b alo ahi blo bhi in
  blo ≤ j ∧ j + k ≤ bhi.
Proof.
  intros Hle. unfold find_longest_match.
  pose proof (scan_rows_bounds_b blo bhi (seq alo (ahi - alo)) ∅ alo blo 0) as Hs.
  destruct (scan_rows a b blo bhi (seq alo (ahi - alo)) ∅ alo blo 0)
    as [[bi bj] bs].
  destruct Hs as [Hs1 Hs2]; [apply map_Forall_empty|done|lia|].
  pose proof (extend_left_bounds_b alo blo bi bj bs Hs1) as Hl.
  destruct (extend_left a b alo blo bi bj bs) as [[bi' bj'] bs'].
  destruct Hl as [Hl1 Hl2]. split; [done|].
  apply extend_right_bounds_b. lia.
Qed.

Lemma span_a_cons alo ahi blo bhi queue :
  span_a ((alo, ahi, blo, bhi) :: queue) = ahi - alo + span_a queue.
Proof. reflexivity. Qed.

Lemma span_b_cons alo ahi blo bhi queue :
  span_b ((alo, ahi, blo, bhi) :: queue) = bhi - blo + span_b queue.
Proof. reflexivity. Qed.

Lemma block_total_snoc blocks i j k :
  block_total (blocks ++ [(i, j, k)]) = block_total blocks + k.
Proof.
  unfold block_total. rewrite fmap_app, sum_list_with_app.
  unfold match_size. simpl. lia.
Qed.

(** The blocks found take their elements from stretches of [a], and of
    [b], that do not overlap. *)
Lemma blocks_loop_total (n : nat) :
  ∀ queue blocks found,
    Forall (λ '(alo, ahi, blo, bhi), alo ≤ ahi ∧ blo ≤ bhi) queue →
    blocks_loop a b n queue blocks = Some found →
    block_total found ≤ block_total blocks + span_a queue
    ∧ block_total found ≤ block_total blocks + span_b queue.
Proof.
  induction n as [|n IH]; intros queue blocks found Hwf Hrun.
  - destruct queue as [|[[[alo ahi] blo] bhi] q]; simpl in Hrun; [|done].
    injection Hrun as <-. lia.
  - destruct queue as [|[[[alo ahi] blo] bhi] q]; simpl in Hrun.
    { injection Hrun as <-. lia. }
    apply Forall_cons in Hwf as [[Hla Hlb] Hwf].
    rewrite span_a_cons, span_b_cons.
    pose proof (find_longest_match_bounds a b alo ahi blo bhi Hla) as Ha.
    pose proof (find_longest_match_bounds_b alo ahi blo bhi Hlb) as Hb.
    destruct (find_longest_match a b alo ahi blo bhi) as [[i j] k].
    destruct Ha as [Ha1 Ha2], Hb as [Hb1 Hb2].
    destruct (k =? 0) eqn:Hk.
    { destruct (IH _ _ _ Hwf Hrun). lia. }
    apply IH in Hrun.
    + rewrite block_total_snoc in Hrun.
      destruct ((i + k <? ahi) && (j + k <? bhi));
        destruct ((alo <? i) && (blo <? j));
        rewrite ?span_a_cons, ?span_b_cons in Hrun; lia.
    + destruct ((i + k <? ahi) && (j + k <? bhi));
        destruct ((alo <? i) && (blo <? j));
        repeat (apply Forall_cons; split); try done; lia.
Qed.

Lemma block_total_cons blocks i j k :
  block_total ((i, j, k) :: blocks) = k + block_total blocks.
Proof. reflexivity. Qed.

Lemma block_total_app blocks1 blocks2 :
  block_total (blocks1 ++ blocks2) = block_total blocks1 + block_total blocks2.
Proof. unfold block_total. by rewrite fmap_app, sum_list_with_app. Qed.

Lemma collapse_total blocks :
  ∀ i1 j1 k1, block_total (collapse blocks i1 j1 k1) = k1 + block_total blocks.
Proof.
  induction blocks as [|[[i2 j2] k2] blocks IH]; intros i1 j1 k1; simpl.
  - destruct (k1 =? 0) eqn:Hk; [apply Nat.eqb_eq in Hk; by subst|].
    by rewrite block_total_cons.
  - rewrite block_total_cons. destruct ((i1 + k1 =? i2) && (j1 + k1 =? j2)).
    + rewrite IH. lia.
    + rewrite block_total_app, IH.
      destruct (k1 =? 0) eqn:Hk; [apply Nat.eqb_eq in Hk; by subst|].
      rewrite block_total_cons. unfold block_total at 1. simpl. lia.
Qed.

(** No more elements match than either sequence has. *)
Lemma matches_bounds :
  matches a b ≤ length a ∧ matches a b ≤ length b.
Proof.
  unfold matches, get_matching_blocks.
  destruct get_matching_blocks_ends with a b as [found Hfound].
  rewrite Hfound. simpl.
  fold (block_total (collapse (merge_sort match_le found) 0 0 0
                     ++ [(length a, length b, 0)])).
  rewrite block_total_snoc, collapse_total.
  assert (block_total (merge_sort match_le found) = block_total found) as ->.
  { unfold block_total. by rewrite merge_sort_Permutation. }
  apply blocks_loop_total in Hfound.
  - rewrite span_a_cons, span_b_cons in Hfound.
    unfold block_total at 2 4 in Hfound. unfold span_a, span_b in Hfound.
    simpl in Hfound. lia.
  - apply Forall_cons. split; [lia|constructor].
Qed.

Lemma ratio_bounds : (0 <= ratio a b)%Q ∧ (ratio a b <= 1)%Q.
Proof.
  unfold ratio. destruct (length a + length b =? 0) eqn:Hlen; [done|].
  apply Nat.eqb_neq in Hlen. destruct matches_bounds as [Ha Hb].
  unfold Qle. simpl. split; [lia|].
  rewrite Z.mul_1_r, Z.mul_1_l. rewrite <- (positive_nat_Z (Pos.of_nat _)).
  rewrite Nat2Pos.id by done. lia.
Qed.
End ratio_facts.

(** X8: the similarity that [calculate_similarity] returns lies between 0
    and 1, as its docstring says. *)
Theorem calculate_similarity_bounds (str1 str2 : string) :
  (0 <= calculate_similarity str1 str2)%Q ∧ (calculate_similarity str1 str2 <= 1)%Q.
Proof. apply ratio_bounds. Qed.

Lemma py_lower_char_idemp (c : ascii) :
  py_lower_char (py_lower_char c) = py_lower_char c.
Proof. destruct c as [[] [] [] [] [] [] [] []]; reflexivity. Qed.

Lemma py_lower_idemp (s : string) : py_lower (py_lower s) = py_lower s.
Proof.
  induction s as [|c s IH]; simpl; [done|].
  by rewrite py_lower_char_idemp, IH.
Qed.

(** X9: [calculate_similarity] compares its arguments without regard to
    case: lower-casing either of them beforehand does not change the
    result. *)
Theorem calculate_similarity_ignores_case (str1 str2 : string) :
  calculate_similarity (py_lower str1) str2 = calculate_similarity str1 str2
  ∧ calculate_similarity str1 (py_lower str2) = calculate_similarity str1 str2.
Proof. unfold calculate_similarity. by rewrite !py_lower_idemp. Qed.

(** X10: a non-empty string has similarity 0 to the empty string, in
    either order of the arguments. *)
Theorem calculate_similarity_empty (str : string) :
  str ≠ "" →
  (calculate_similarity str "" == 0)%Q ∧ (calculate_similarity "" str == 0)%Q.
Proof.
  intros Hne. destruct str as [|c str]; [done|].
  unfold calculate_similarity, difflib.ratio.
  change (chars (py_lower "")) with (@nil ascii).
  set (a := chars (py_lower (String c str))).
  assert (length a = S (length (chars (py_lower str)))) as Hlen by reflexivity.
  destruct (matches_bounds a []) as [_ H1].
  destruct (matches_bounds [] a) as [H2 _].
  apply Nat.le_0_r in H1, H2. rewrite H1, H2, Hlen. simpl.
  rewrite Nat.add_0_r. done.
Qed.

Lemma calculate_similarity_empty_witness :
  (calculate_similarity "design intern" "" == 0)%Q
  ∧ (calculate_similarity "" "design intern" == 0)%Q.
Proof. apply (calculate_similarity_empty "design intern"). discriminate. Defined.

(** X11: lowering the threshold only adds matches: two jobs judged
    duplicates under a threshold are judged duplicates under every
    threshold below it. *)
Theorem are_jobs_duplicate_threshold_mono (loose strict : JobDeduplicator)
    (job1 job2 : Job) :
  (title_threshold loose <= title_threshold strict)%Q →
  is_dup strict job1 job2 = true → is_dup loose job1 job2 = true.
Proof.
  intros Hle. unfold is_dup, are_jobs_duplicate.
  fold (company_of job1) (company_of job2) (title_of job1) (title_of job2).
  case_bool_decide; [done|].
  destruct (invalid (company_of job1) || invalid (company_of job2)); [done|].
  case_bool_decide; [|done]. simpl.
  destruct (invalid (title_of job1) || invalid (title_of job2)); [done|].
  case_bool_decide; [done|].
  destruct (Qle_bool (title_threshold strict) _) eqn:Hstrict; [|done].
  intros _. apply Qle_bool_iff in Hstrict.
  assert (Qle_bool (title_threshold loose)
            (calculate_similarity (title_of job1) (title_of job2)) = true) as ->;
    [|done].
  apply Qle_bool_iff. by apply Qle_trans with (title_threshold strict).
Qed.

Lemma are_jobs_duplicate_threshold_mono_witness :
  is_dup loose_deduplicator visual_posting uiux_posting = true.
Proof.
  apply (are_jobs_duplicate_threshold_mono loose_deduplicator default_deduplicator).
  - vm_compute. discriminate.
  - vm_compute. reflexivity.
Defined.

(** ** More on the scorer *)

Lemma py_in_empty_text (k : string) : py_in k "" = true ↔ k = "".
Proof. rewrite py_in_nil. by destruct k. Qed.

Lemma hits_empty_text (keywords : list string) :
  "" ∉ keywords → hits keywords "" = [].
Proof.
  intros Hno. unfold hits.
  induction keywords as [|k keywords IH]; [done|].
  apply not_elem_of_cons in Hno as [Hk Hno].
  rewrite filter_cons_False; [by apply IH|].
  rewrite py_in_empty_text. congruence.
Qed.

Lemma first_hit_empty_text (keywords : list string) :
  "" ∉ keywords → first_hit keywords "" = false.
Proof.
  intros Hno. induction keywords as [|k keywords IH]; [done|].
  apply not_elem_of_cons in Hno as [Hk Hno].
  change (first_hit (k :: keywords) "")
    with (if py_in k "" then true else first_hit keywords "").
  destruct (py_in k "") eqn:Hin; [|by apply IH].
  apply py_in_empty_text in Hin. congruence.
Qed.

Lemma sort_desc_sorted_id {A} (key : A → Z) (l : list A) :
  StronglySorted (λ u v, (key v ≤ key u)%Z) l → sort_desc key l = l.
Proof.
  induction 1 as [|x l Hs IH Hx]; simpl; [done|].
  rewrite IH. destruct l as [|y l]; [done|]. simpl.
  apply Forall_cons in Hx as [Hy _].
  by rewrite (proj2 (Z.ltb_ge (key x) (key y))).
Qed.

Section scorer_more.
Context (self : KeywordFilter).

(** X12: the breakdown that [calculate_relevance_score] returns accounts
    for the score: [total_score] is the score, the score is 3 for each
    entry of [title_matches], minus 10 for each of [title_excludes], plus
    1 for each of [description_matches]; the three lists are subsequences
    of the configured lists, and each of their keywords occurs in the
    lower-cased title, or description. *)
Theorem score_breakdown_consistent job :
  let score := (calculate_relevance_score self job).1 in
  let breakdown := (calculate_relevance_score self job).2 in
  total_score breakdown = score
  ∧ score = (3 * Z.of_nat (length (title_matches breakdown))
             - 10 * Z.of_nat (length (title_excludes breakdown))
             + Z.of_nat (length (description_matches breakdown)))%Z
  ∧ title_matches breakdown `sublist_of` include_title self
  ∧ title_excludes breakdown `sublist_of` exclude_title self
  ∧ description_matches breakdown `sublist_of` include_description self
  ∧ Forall (λ k, substring_of k (lowered (title job))) (title_matches breakdown)
  ∧ Forall (λ k, substring_of k (lowered (title job))) (title_excludes breakdown)
  ∧ Forall (λ k, substring_of k (lowered (description job)))
      (description_matches breakdown).
Proof.
  rewrite calculate_relevance_score_eq. simpl.
  assert (∀ keywords text, Forall (λ k, substring_of k text) (hits keywords text))
    as Hocc.
  { intros keywords text. apply list.Forall_forall. intros k Hk.
    apply list_elem_of_filter in Hk as [Hk _]. by apply py_in_spec. }
  repeat split; try apply sublist_filter; try apply Hocc. lia.
Qed.

(** X13: the score lies between -10 times the number of [exclude_title]
    keywords and 3 times the number of [include_title] keywords plus the
    number of [include_description] keywords. *)
Theorem calculate_relevance_score_bounds job :
  (- 10 * Z.of_nat (length (exclude_title self))
   ≤ (calculate_relevance_score self job).1
   ≤ 3 * Z.of_nat (length (include_title self))
     + Z.of_nat (length (include_description self)))%Z.
Proof.
  rewrite calculate_relevance_score_eq. simpl. unfold hits.
  pose proof (length_filter (λ k, py_in k (lowered (title job)) = true)
                (include_title self)).
  pose proof (length_filter (λ k, py_in k (lowered (title job)) = true)
                (exclude_title self)).
  pose proof (length_filter (λ k, py_in k (lowered (description job)) = true)
                (include_description self)).
  lia.
Qed.

(** X14: the scorer reads the title and the description without regard
    to case: a job whose title and description are given in lower case
    gets the score, the breakdown and the internship verdict of the job
    with the original strings. *)
Theorem scorer_ignores_case job (t d : string) :
  calculate_relevance_score self (with_text job (VStr (py_lower t)) (VStr (py_lower d)))
  = calculate_relevance_score self (with_text job (VStr t) (VStr d))
  ∧ is_internship self (with_text job (VStr (py_lower t)) (VStr (py_lower d)))
    = is_internship self (with_text job (VStr t) (VStr d)).
Proof.
  unfold calculate_relevance_score, is_internship, lowered. simpl.
  by rewrite !py_lower_idemp.
Qed.

(** X15: when no configured keyword is the empty string, a job whose
    title and description are missing or empty scores 0, with an empty
    breakdown, and is not an internship. *)
Theorem job_without_text job :
  "" ∉ internship_keywords self → "" ∉ include_title self →
  "" ∉ exclude_title self → "" ∉ include_description self →
  dict_get (title job) (VStr "") = VStr "" →
  dict_get (description job) (VStr "") = VStr "" →
  calculate_relevance_score self job
  = (0%Z, {| title_matches := []; title_excludes := [];
             description_matches := []; total_score := 0 |})
  ∧ is_internship self job = false.
Proof.
  intros Hi Ht He Hd Htitle Hdesc. split.
  - rewrite calculate_relevance_score_eq. unfold lowered.
    rewrite Htitle, Hdesc. simpl. by rewrite !hits_empty_text.
  - unfold is_internship, lowered. rewrite Htitle, Hdesc. simpl.
    rewrite first_hit_empty_text by done.
    rewrite first_hit_empty_text; [done|].
    intros Hin. apply Hi. by apply (sublist_subseteq _ _ (sublist_take _ 3)).
Qed.

Lemma calculate_relevance_score_scored job :
  calculate_relevance_score self (scored self job)
  = calculate_relevance_score self job.
Proof. reflexivity. Qed.

Lemma is_internship_scored job :
  is_internship self (scored self job) = is_internship self job.
Proof. reflexivity. Qed.

Lemma scored_scored job : scored self (scored self job) = scored self job.
Proof. reflexivity. Qed.

Lemma passes_scored require_internship job :
  passes self require_internship (scored self job)
  = passes self require_internship job.
Proof. reflexivity. Qed.

(** X16: [filter_jobs] run on its own output returns that output: the
    scores are recomputed to the same values, every job passes again, and
    the sort leaves a sorted list as it is. *)
Theorem filter_jobs_idempotent jobs require_internship out :
  filter_jobs self jobs require_internship = Some out →
  filter_jobs self out require_internship = Some out.
Proof.
  intros Hout. rewrite filter_jobs_eq in Hout. injection Hout as Hout.
  rewrite filter_jobs_eq. f_equal.
  assert (Forall (λ job', ∃ job, job' = scored self job
                                 ∧ passes self require_internship job = true) out)
    as Hall.
  { apply list.Forall_forall. intros job' Hin. rewrite <- Hout in Hin.
    rewrite sort_desc_perm in Hin.
    apply list_elem_of_fmap in Hin as (job & -> & Hin).
    apply list_elem_of_filter in Hin as [Hp _]. by exists job. }
  assert (filter (λ job, passes self require_internship job = true) out = out)
    as ->.
  { clear Hout. induction Hall as [|job' out (job & -> & Hp) _ IH]; [done|].
    rewrite filter_cons_True by (by rewrite passes_scored). by rewrite IH. }
  assert (scored self <$> out = out) as ->.
  { clear Hout. induction Hall as [|job' out (job & -> & Hp) _ IH]; [done|].
    rewrite fmap_cons, scored_scored. by rewrite IH. }
  apply sort_desc_sorted_id. rewrite <- Hout. apply sort_desc_sorted.
Qed.

(** X17: every job that [filter_jobs] returns carries a score that
    reaches the minimum and a breakdown whose total is that score, both
    equal to what [calculate_relevance_score] gives for the returned job;
    it is an internship when that was required; and no more jobs are
    returned than were given. *)
Theorem filter_jobs_output jobs require_internship out :
  filter_jobs self jobs require_internship = Some out →
  length out ≤ length jobs
  ∧ Forall (λ job,
      ∃ score breakdown,
        relevance_score job = Some score
        ∧ score_breakdown job = Some breakdown
        ∧ total_score breakdown = score
        ∧ (minimum_score self ≤ score)%Z
        ∧ calculate_relevance_score self job = (score, breakdown)
        ∧ (require_internship = true → is_internship self job = true)) out.
Proof.
  intros Hout. rewrite filter_jobs_eq in Hout. injection Hout as <-. split.
  - rewrite sort_desc_perm, length_fmap. apply length_filter.
  - rewrite sort_desc_perm. apply Forall_fmap, list.Forall_forall.
    intros job Hin. apply list_elem_of_filter in Hin as [Hp _].
    unfold passes in Hp. apply andb_prop in Hp as [Hgate Hmin].
    apply Z.leb_le in Hmin.
    exists (calculate_relevance_score self job).1,
           (calculate_relevance_score self job).2.
    simpl. rewrite calculate_relevance_score_scored.
    repeat split; try done.
    + by rewrite calculate_relevance_score_eq.
    + by destruct (calculate_relevance_score self job).
    + intros ->. rewrite is_internship_scored.
      by destruct (is_internship self job).
Qed.
End scorer_more.

(** X15 on a job that has no title and no description. *)
Lemma job_without_text_witness :
  calculate_relevance_score (KeywordFilter_init keywords_yml) anonymous_text_free
  = (0%Z, {| title_matches := []; title_excludes := [];
             description_matches := []; total_score := 0 |})
  ∧ is_internship (KeywordFilter_init keywords_yml) anonymous_text_free = false.
Proof.
  apply (job_without_text (KeywordFilter_init keywords_yml) anonymous_text_free);
    try reflexivity; apply (bool_decide_unpack _); vm_compute; exact I.
Defined.

(** X16 and X17 on the first job of the self-test. *)
Lemma filter_jobs_idempotent_witness :
  filter_jobs (KeywordFilter_init keywords_yml)
    [scored (KeywordFilter_init keywords_yml) ux_intern] true
  = Some [scored (KeywordFilter_init keywords_yml) ux_intern].
Proof.
  apply (filter_jobs_idempotent (KeywordFilter_init keywords_yml) [ux_intern] true).
  vm_compute. reflexivity.
Defined.

Lemma filter_jobs_output_witness :
  length [scored (KeywordFilter_init keywords_yml) ux_intern] ≤ length [ux_intern]
  ∧ Forall (λ job,
      ∃ score breakdown,
        relevance_score job = Some score
        ∧ score_breakdown job = Some breakdown
        ∧ total_score breakdown = score
        ∧ (minimum_score (KeywordFilter_init keywords_yml) ≤ score)%Z
        ∧ calculate_relevance_score (KeywordFilter_init keywords_yml) job
          = (score, breakdown)
        ∧ (true = true → is_internship (KeywordFilter_init keywords_yml) job = true))
      [scored (KeywordFilter_init keywords_yml) ux_intern].
Proof.
  apply (filter_jobs_output (KeywordFilter_init keywords_yml) [ux_intern] true).
  vm_compute. reflexivity.
Defined.

(** ** The statistics *)

Lemma mapM_relevance_score jobs scores :
  mapM relevance_score jobs = Some scores → scores = score_of <$> jobs.
Proof.
  intros Hm. apply mapM_Some in Hm.
  induction Hm as [|job score jobs scores Hs _ IH]; [done|].
  rewrite fmap_cons, <- IH. unfold score_of. by rewrite Hs.
Qed.

Lemma get_statistics_cons job jobs :
  get_statistics (job :: jobs)
  = scores ← mapM relevance_score (job :: jobs);
    match scores with
    | [] => None
    | s :: rest =>
        Some {| total := length (job :: jobs);
                average_score :=
                  Qmake (foldr Z.add 0%Z scores) (Pos.of_nat (length scores));
                score_range := (foldr Z.min s rest, foldr Z.max s rest);
                top_keywords :=
                  take 10 (sort_desc (λ kv, Z.of_nat kv.2)
                             (keyword_counts (job :: jobs))) |}
    end.
Proof. reflexivity. Qed.

(** X18: [get_statistics] fails, with the [KeyError] of
    [j['relevance_score']], on every list that holds a job without
    [relevance_score]. *)
Theorem get_statistics_missing_score jobs job :
  job ∈ jobs → relevance_score job = None → get_statistics jobs = None.
Proof.
  intros Hin Hnone. destruct jobs as [|first jobs]; [by apply elem_of_nil in Hin|].
  rewrite get_statistics_cons.
  assert (mapM relevance_score (first :: jobs) = None) as ->; [|done].
  apply mapM_None_2, Exists_exists. by exists job.
Qed.

Lemma foldr_min_spec (s : Z) (rest : list Z) :
  foldr Z.min s rest ∈ s :: rest ∧ Forall (λ x, (foldr Z.min s rest ≤ x)%Z) (s :: rest).
Proof.
  induction rest as [|y rest [Hin Hall]]; simpl.
  - split; [apply list_elem_of_here|]. apply Forall_cons. split; [lia|constructor].
  - split.
    + destruct (Z.min_spec y (foldr Z.min s rest)) as [[_ ->]|[_ ->]].
      * apply list_elem_of_further, list_elem_of_here.
      * apply elem_of_cons in Hin as [->|Hin];
          [apply list_elem_of_here|by do 2 apply list_elem_of_further].
    + apply Forall_cons in Hall as [Hs Hall].
      repeat (apply Forall_cons; split); [lia|lia|].
      eapply Forall_impl; [exact Hall|]. intros x Hx. simpl in Hx. lia.
Qed.

Lemma foldr_max_spec (s : Z) (rest : list Z) :
  foldr Z.max s rest ∈ s :: rest ∧ Forall (λ x, (x ≤ foldr Z.max s rest)%Z) (s :: rest).
Proof.
  induction rest as [|y rest [Hin Hall]]; simpl.
  - split; [apply list_elem_of_here|]. apply Forall_cons. split; [lia|constructor].
  - split.
    + destruct (Z.max_spec y (foldr Z.max s rest)) as [[_ ->]|[_ ->]].
      * apply elem_of_cons in Hin as [->|Hin];
          [apply list_elem_of_here|by do 2 apply list_elem_of_further].
      * apply list_elem_of_further, list_elem_of_here.
    + apply Forall_cons in Hall as [Hs Hall].
      repeat (apply Forall_cons; split); [lia|lia|].
      eapply Forall_impl; [exact Hall|]. intros x Hx. simpl in Hx. lia.
Qed.

(** X19: when [get_statistics] returns on a non-empty list, every job
    of the list has a [relevance_score], [total] is the number of jobs,
    and [score_range] holds the least and the greatest score of the
    list: each is the score of a job of the list, and the score of every
    job lies between them. *)
Theorem get_statistics_score_range jobs st :
  jobs ≠ [] → get_statistics jobs = Some st →
  Forall (λ job, is_Some (relevance_score job)) jobs
  ∧ total st = length jobs
  ∧ Forall (λ job, ((score_range st).1 ≤ score_of job ≤ (score_range st).2)%Z) jobs
  ∧ (∃ job, job ∈ jobs ∧ score_of job = (score_range st).1)
  ∧ (∃ job, job ∈ jobs ∧ score_of job = (score_range st).2).
Proof.
  intros Hne Hst. destruct jobs as [|job jobs]; [done|].
  rewrite get_statistics_cons in Hst.
  destruct (mapM relevance_score (job :: jobs)) as [scores|] eqn:Hm; [|done].
  assert (Forall (λ job, is_Some (relevance_score job)) (job :: jobs)) as Hscored.
  { apply (mapM_is_Some_1 relevance_score). by eexists. }
  apply mapM_relevance_score in Hm. subst scores.
  rewrite fmap_cons in Hst.
  assert (score_of job :: (score_of <$> jobs) = score_of <$> job :: jobs) as Hall
    by done.
  revert Hst Hall.
  generalize (score_of job) (score_of <$> jobs). intros s rest Hst Hall.
  simpl in Hst. injection Hst as <-. simpl total. simpl score_range.
  destruct (foldr_min_spec s rest) as [Hmin_in Hmin].
  destruct (foldr_max_spec s rest) as [Hmax_in Hmax].
  assert (Forall (λ x, (foldr Z.min s rest ≤ x ≤ foldr Z.max s rest)%Z) (s :: rest))
    as Hboth.
  { rewrite list.Forall_forall in Hmin, Hmax. apply list.Forall_forall.
    intros x Hx. split; [by apply Hmin|by apply Hmax]. }
  rewrite Hall in Hboth, Hmin_in, Hmax_in.
  split; [done|]. split; [done|]. split; [by apply Forall_fmap in Hboth|].
  split.
  - apply list_elem_of_fmap in Hmin_in as (j & Hj & Hin). by exists j.
  - apply list_elem_of_fmap in Hmax_in as (j & Hj & Hin). by exists j.
Qed.

(** X19 on the jobs of the self-test of the deduplicator: the scores run
    from 7 to 11. *)
Lemma get_statistics_score_range_witness :
  Forall (λ job, is_Some (relevance_score job)) test_jobs
  ∧ 5 = length test_jobs
  ∧ Forall (λ job, (7 ≤ score_of job ≤ 11)%Z) test_jobs
  ∧ (∃ job, job ∈ test_jobs ∧ score_of job = 7%Z)
  ∧ (∃ job, job ∈ test_jobs ∧ score_of job = 11%Z).
Proof.
  apply (get_statistics_score_range test_jobs
           {| total := 5; average_score := 45 # 5; score_range := (7%Z, 11%Z);
              top_keywords := [] |}); [discriminate|reflexivity].
Defined.

(** X18 on the first job of the self-test of the filter, before it is
    scored. *)
Lemma get_statistics_missing_score_witness :
  get_statistics [ux_intern] = None.
Proof.
  apply (get_statistics_missing_score [ux_intern] ux_intern);
    [apply list_elem_of_here|reflexivity].
Defined.

(** ** The keyword counts *)

Lemma count_keyword_count_of (keyword k : string) counts :
  count_of k (count_keyword keyword counts)
  = if bool_decide (k = keyword) then count_of k counts + 1 else count_of k counts.
Proof.
  induction counts as [|[k' n] counts IH]; cbn [count_of count_keyword].
  - repeat case_bool_decide; first [done|congruence|lia].
  - destruct (bool_decide (k' = keyword)) eqn:Hk'; cbn [count_of].
    + apply bool_decide_eq_true in Hk'. subst k'.
      repeat case_bool_decide; first [done|congruence|lia].
    + apply bool_decide_eq_false in Hk'. rewrite IH.
      repeat case_bool_decide; first [done|congruence|lia].
Qed.

Lemma count_keyword_keys (keyword : string) counts :
  (count_keyword keyword counts).*1
  = if bool_decide (keyword ∈ counts.*1) then counts.*1 else counts.*1 ++ [keyword].
Proof.
  induction counts as [|[k' n] counts IH]; cbn [count_keyword].
  - rewrite bool_decide_eq_false_2; [done|]. apply not_elem_of_nil.
  - rewrite (fmap_cons fst (k', n) counts). cbn [fst].
    destruct (bool_decide (k' = keyword)) eqn:Hk'.
    + apply bool_decide_eq_true in Hk'. subst k'.
      rewrite bool_decide_eq_true_2; [done|apply list_elem_of_here].
    + apply bool_decide_eq_false in Hk'. rewrite fmap_cons, IH. cbn [fst].
      destruct (bool_decide (keyword ∈ counts.*1)) eqn:Hin.
      * apply bool_decide_eq_true in Hin.
        rewrite bool_decide_eq_true_2; [done|by apply list_elem_of_further].
      * apply bool_decide_eq_false in Hin.
        rewrite bool_decide_eq_false_2; [done|].
        intros [?|?]%elem_of_cons; congruence.
Qed.

Lemma count_of_elem_of (k : string) (n : nat) counts :
  NoDup counts.*1 → ((k, n) ∈ counts ↔ k ∈ counts.*1 ∧ count_of k counts = n).
Proof.
  induction counts as [|[k' n'] counts IH]; intros Hnd.
  - split; [intros H; by apply elem_of_nil in H|].
    intros [H _]. by apply elem_of_nil in H.
  - rewrite fmap_cons in Hnd |- *. cbn [fst count_of] in *.
    apply NoDup_cons in Hnd as [Hk' Hnd]. rewrite !elem_of_cons, (IH Hnd).
    case_bool_decide as Heq.
    + subst k'. split.
      * intros [Hp|[Hin _]]; [by injection Hp as ->; auto|done].
      * intros [_ ->]. by left.
    + split.
      * intros [Hp|[Hin Hc]]; [injection Hp as -> ->; done|auto].
      * intros [[->|Hin] Hc]; [done|auto].
Qed.

Lemma occurrences_in_snoc (k keyword : string) seen :
  occurrences_in k (seen ++ [keyword])
  = if bool_decide (k = keyword) then occurrences_in k seen + 1
    else occurrences_in k seen.
Proof.
  unfold occurrences_in. rewrite filter_app, length_app.
  case_bool_decide as Heq.
  - by rewrite filter_cons_True.
  - rewrite filter_cons_False by congruence. simpl. lia.
Qed.

(** The counts that the loops over the [title_matches] build: one entry
    for each keyword met, holding how often it was met. *)
Lemma tally_spec keywords :
  ∀ counts seen,
    NoDup counts.*1 →
    (∀ k, k ∈ counts.*1 ↔ 0 < occurrences_in k seen) →
    (∀ k, count_of k counts = occurrences_in k seen) →
    let counts' := fold_left (λ c k, count_keyword k c) keywords counts in
    NoDup counts'.*1
    ∧ (∀ k, k ∈ counts'.*1 ↔ 0 < occurrences_in k (seen ++ keywords))
    ∧ (∀ k, count_of k counts' = occurrences_in k (seen ++ keywords)).
Proof.
  induction keywords as [|keyword keywords IH]; intros counts seen Hnd Hkeys Hc;
    simpl.
  - by rewrite app_nil_r.
  - rewrite (cons_middle keyword seen keywords), app_assoc. apply IH.
    + rewrite count_keyword_keys. case_bool_decide as Hin; [done|].
      apply NoDup_app. split; [done|]. split; [|apply NoDup_singleton].
      intros k Hk ->%list_elem_of_singleton. done.
    + intros k. rewrite count_keyword_keys, occurrences_in_snoc.
      case_bool_decide as Hin; case_bool_decide as Heq; subst;
        rewrite ?elem_of_app, ?list_elem_of_singleton, ?Hkeys.
      * apply Hkeys in Hin. lia.
      * done.
      * split; [lia|auto].
      * split; [by intros [?|?]|auto].
    + intros k. rewrite count_keyword_count_of, occurrences_in_snoc, Hc. done.
Qed.

Lemma keyword_counts_fold jobs :
  ∀ counts,
    fold_left (λ counts job,
                 fold_left (λ c k, count_keyword k c) (title_matches_of job) counts)
      jobs counts
    = fold_left (λ c k, count_keyword k c) (mjoin (title_matches_of <$> jobs)) counts.
Proof.
  induction jobs as [|job jobs IH]; intros counts; simpl; [done|].
  by rewrite IH, fold_left_app.
Qed.

Lemma keyword_counts_spec jobs :
  NoDup (keyword_counts jobs).*1
  ∧ ∀ k n, (k, n) ∈ keyword_counts jobs ↔ 0 < n ∧ n = occurrences k jobs.
Proof.
  unfold keyword_counts. rewrite keyword_counts_fold.
  destruct (tally_spec (mjoin (title_matches_of <$> jobs)) [] [])
    as (Hnd & Hkeys & Hc); [constructor| |done|].
  { intros k. split; [intros H; by apply elem_of_nil in H|].
    unfold occurrences_in. simpl. lia. }
  simpl in Hnd, Hkeys, Hc. split; [done|].
  intros k n. rewrite (count_of_elem_of k n _ Hnd), Hkeys, Hc.
  unfold occurrences. split; [intros [? <-]; auto|intros [? ->]; auto].
Qed.

Lemma top_keywords_eq jobs st :
  get_statistics jobs = Some st →
  top_keywords st
  = take 10 (sort_desc (λ kv, Z.of_nat kv.2) (keyword_counts jobs)).
Proof.
  destruct jobs as [|job jobs]; [by intros [= <-]|].
  rewrite get_statistics_cons.
  destruct (mapM relevance_score (job :: jobs)) as [[|s rest]|]; simpl; [done| |done].
  by intros [= <-].
Qed.

(** X20: [top_keywords] holds at most 10 entries, no keyword twice; each
    entry gives a keyword found in the [title_matches] of some job with
    the number of times it is found in the [title_matches] of all jobs;
    the counts do not increase along the list; and a keyword that is
    found but left out is found no more often than any keyword in the
    list, which is then 10 long. *)
Theorem top_keywords_spec jobs st :
  get_statistics jobs = Some st →
  length (top_keywords st) ≤ 10
  ∧ NoDup (top_keywords st).*1
  ∧ StronglySorted (λ x y, (Z.of_nat y.2 ≤ Z.of_nat x.2)%Z) (top_keywords st)
  ∧ (∀ k n, (k, n) ∈ top_keywords st → 0 < n ∧ n = occurrences k jobs)
  ∧ (∀ k, 0 < occurrences k jobs →
          (k, occurrences k jobs) ∈ top_keywords st
          ∨ (length (top_keywords st) = 10
             ∧ ∀ k' n', (k', n') ∈ top_keywords st → occurrences k jobs ≤ n')).
Proof.
  intros Hst. rewrite (top_keywords_eq jobs st Hst). clear Hst.
  destruct (keyword_counts_spec jobs) as [Hnd Hmem].
  set (sorted := sort_desc (λ kv : string * nat, Z.of_nat kv.2) (keyword_counts jobs)).
  assert (sorted ≡ₚ keyword_counts jobs) as Hperm by apply sort_desc_perm.
  assert (StronglySorted (λ x y : string * nat, (Z.of_nat y.2 ≤ Z.of_nat x.2)%Z)
            sorted) as Hsorted by apply sort_desc_sorted.
  rewrite <- (take_drop 10 sorted) in Hsorted.
  split; [rewrite length_take; lia|]. split.
  { apply (sublist_NoDup _ sorted.*1).
    - by rewrite Hperm.
    - rewrite fmap_take. apply sublist_take. }
  split; [by apply StronglySorted_app_1_l in Hsorted|]. split.
  { intros k n Hin. apply Hmem. rewrite <- Hperm.
    by apply (sublist_subseteq _ _ (sublist_take sorted 10)). }
  intros k Hk.
  assert ((k, occurrences k jobs) ∈ take 10 sorted ++ drop 10 sorted) as Hin.
  { rewrite take_drop, Hperm. by apply Hmem. }
  apply elem_of_app in Hin as [Hin|Hin]; [by left|right]. split.
  - apply length_take_le.
    destruct (decide (10 ≤ length sorted)) as [|Hshort]; [done|].
    rewrite drop_ge in Hin by lia. by apply elem_of_nil in Hin.
  - intros k' n' Hin'.
    pose proof (StronglySorted_app_1_elem_of _ _ _ _ _ Hsorted Hin' Hin) as Hle.
    simpl in Hle. lia.
Qed.

(** X20 on the scored first job of the self-test of the filter: "design"
    is counted once. *)
Lemma top_keywords_spec_witness :
  0 < 1 ∧ 1 = occurrences "design" [scored (KeywordFilter_init keywords_yml) ux_intern].
Proof.
  destruct (top_keywords_spec
              [scored (KeywordFilter_init keywords_yml) ux_intern]
              {| total := 1; average_score := 7 # 1; score_range := (7%Z, 7%Z);
                 top_keywords := [("design", 1); ("intern", 1)] |})
    as (_ & _ & _ & Hcount & _); [reflexivity|].
  apply Hcount. apply list_elem_of_here.
Defined.

(** ** The pipeline of [main.py] *)

Lemma strongly_sorted_sublist {A} (R : relation A) (l1 l2 : list A) :
  l1 `sublist_of` l2 → StronglySorted R l2 → StronglySorted R l1.
Proof.
  induction 1 as [|x l1 l2 Hsub IH|x l1 l2 Hsub IH]; intros Hs; [done|..].
  - apply StronglySorted_inv in Hs as [Hs Hx]. constructor; [by apply IH|].
    rewrite list.Forall_forall in Hx. apply list.Forall_forall. intros y Hy.
    apply Hx. by apply (sublist_subseteq _ _ Hsub).
  - apply StronglySorted_inv in Hs as [Hs _]. by apply IH.
Qed.

Lemma strongly_sorted_score_descending jobs :
  StronglySorted (λ x y, (score_of y ≤ score_of x)%Z) jobs →
  score_descending jobs = true.
Proof.
  induction 1 as [|job jobs Hs IH Hjob]; simpl; [done|].
  rewrite IH, andb_true_r. apply forallb_forall. intros later Hin.
  apply Z.leb_le. rewrite list.Forall_forall in Hjob.
  by apply Hjob, list_elem_of_In.
Qed.

Section pipeline.
Context (filter : KeywordFilter) (deduplicator : JobDeduplicator).

Lemma filter_jobs_internships jobs out :
  filter_jobs filter jobs true = Some out →
  Forall (λ job, is_Some (relevance_score job)
                 ∧ is_internship filter job = true
                 ∧ (minimum_score filter ≤ score_of job)%Z) out
  ∧ StronglySorted (λ x y, (score_of y ≤ score_of x)%Z) out.
Proof.
  intros Hout. rewrite filter_jobs_eq in Hout. injection Hout as <-.
  split; [|apply sort_desc_sorted].
  rewrite sort_desc_perm. apply Forall_fmap, list.Forall_forall.
  intros job Hin. apply list_elem_of_filter in Hin as [Hp _].
  unfold passes in Hp. apply andb_prop in Hp as [Hgate Hmin].
  apply Z.leb_le in Hmin. simpl in Hgate.
  split; [by eexists|]. split; [by rewrite is_internship_scored|done].
Qed.

Lemma get_statistics_scored jobs :
  Forall (λ job, is_Some (relevance_score job)) jobs →
  is_Some (get_statistics jobs).
Proof.
  intros Hall. destruct jobs as [|job jobs]; [by eexists|].
  rewrite get_statistics_cons.
  destruct (mapM_is_Some_2 relevance_score (job :: jobs) Hall) as [scores Hm].
  rewrite Hm. apply mapM_relevance_score in Hm. subst scores. by eexists.
Qed.

Lemma scraper_filter_jobs_eq jobs :
  InternshipScraper.filter_jobs filter jobs = filter_jobs filter jobs true.
Proof.
  unfold InternshipScraper.filter_jobs.
  destruct (filter_jobs filter jobs true) as [out|] eqn:Hout; [|done]. simpl.
  destruct (get_statistics_scored out) as [st ->]; [|done].
  destruct (filter_jobs_internships jobs out Hout) as [Hall _].
  eapply Forall_impl; [exact Hall|]. by intros job [? _].
Qed.

(** X21: the filtering and deduplication steps of [run] raise nothing:
    the statistics that [filter_jobs] of [main.py] computes for its log
    are always there, so that method returns what the filter returns;
    [run] stops early exactly when nothing was scraped or nothing passed
    the filter, and otherwise goes on to save and publish. *)
Theorem run_never_fails all_jobs :
  InternshipScraper.filter_jobs filter all_jobs = filter_jobs filter all_jobs true
  ∧ InternshipScraper.run filter deduplicator all_jobs ≠ InternshipScraper.Fails
  ∧ (InternshipScraper.run filter deduplicator all_jobs
     = InternshipScraper.NoJobsFound ↔ all_jobs = [])
  ∧ (InternshipScraper.run filter deduplicator all_jobs
     = InternshipScraper.NoRelevantJobs ↔
     all_jobs ≠ [] ∧ filter_jobs filter all_jobs true = Some []).
Proof.
  split; [apply scraper_filter_jobs_eq|].
  unfold InternshipScraper.run. rewrite scraper_filter_jobs_eq.
  destruct all_jobs as [|job all_jobs];
    [by repeat split; try done; intros [? _]|].
  rewrite filter_jobs_eq. set (out := sort_desc _ _).
  destruct out as [|x out]; repeat split; try done; intros [_ [=]].
Qed.

(** X22: when [run] goes on to save and publish, the list it publishes
    is the deduplicated filter output: it is not empty, it is a
    subsequence of the filter output and so in descending order of
    score, every job of it is an internship with a score that reaches
    the minimum, no job of it is judged a duplicate of a job before it,
    no two of its jobs have the same [id], and deduplicating it again
    changes nothing. *)
Theorem run_publishes all_jobs filtered_jobs unique_jobs :
  InternshipScraper.run filter deduplicator all_jobs
  = InternshipScraper.Publishes filtered_jobs unique_jobs →
  filter_jobs filter all_jobs true = Some filtered_jobs
  ∧ unique_jobs = deduplicate deduplicator filtered_jobs
  ∧ unique_jobs ≠ []
  ∧ unique_jobs `sublist_of` filtered_jobs
  ∧ StronglySorted (λ x y, (score_of y ≤ score_of x)%Z) unique_jobs
  ∧ Forall (λ job, is_internship filter job = true
                   ∧ (minimum_score filter ≤ score_of job)%Z) unique_jobs
  ∧ settled deduplicator unique_jobs
  ∧ NoDup (id_of <$> unique_jobs)
  ∧ deduplicate deduplicator unique_jobs = unique_jobs.
Proof.
  unfold InternshipScraper.run. rewrite scraper_filter_jobs_eq.
  destruct all_jobs as [|job all_jobs]; [done|].
  destruct (filter_jobs filter (job :: all_jobs) true) as [[|x out]|] eqn:Hout;
    [done| |done].
  intros [= <- <-]. unfold InternshipScraper.deduplicate_jobs.
  destruct (filter_jobs_internships _ _ Hout) as [Hall Hsorted].
  assert (deduplicate deduplicator (x :: out) `sublist_of` x :: out) as Hsub.
  { rewrite deduplicate_fold. by apply (fold_dedup_sublist _ _ [] []). }
  assert (settled deduplicator (deduplicate deduplicator (x :: out))) as Hsettled.
  { rewrite deduplicate_fold. apply fold_dedup_descending.
    - by apply strongly_sorted_score_descending.
    - intros e j He. by apply elem_of_nil in He.
    - intros i j y z _ Hy. by rewrite lookup_nil in Hy. }
  split; [done|]. split; [done|].
  split; [apply fold_dedup_nonempty, dedup_step_nonempty|]. split; [done|].
  split; [by apply (strongly_sorted_sublist _ _ _ Hsub)|]. split.
  { rewrite list.Forall_forall in Hall. apply list.Forall_forall. intros j Hj.
    apply (sublist_subseteq _ _ Hsub) in Hj. by destruct (Hall j Hj) as (_ & ? & ?). }
  split; [done|]. split; [by apply (settled_distinct_ids deduplicator)|].
  change (fold_left (dedup_step deduplicator) out (dedup_step deduplicator [] x))
    with (deduplicate deduplicator (x :: out)).
  rewrite (deduplicate_fold deduplicator (deduplicate deduplicator (x :: out))).
  by rewrite (fold_dedup_settled deduplicator _ []).
Qed.
End pipeline.

(** X22 on the first job of the self-test of the filter. *)
Lemma run_publishes_witness :
  deduplicate default_deduplicator
    [scored (KeywordFilter_init keywords_yml) ux_intern]
  = [scored (KeywordFilter_init keywords_yml) ux_intern].
Proof.
  destruct (run_publishes (KeywordFilter_init keywords_yml) default_deduplicator
              [ux_intern]
              [scored (KeywordFilter_init keywords_yml) ux_intern]
              [scored (KeywordFilter_init keywords_yml) ux_intern])
    as (_ & _ & _ & _ & _ & _ & _ & _ & Hsame); [reflexivity|exact Hsame].
Defined.

(** ** Case *)

Lemma py_lower_empty (s : string) : py_lower s = "" ↔ s = "".
Proof. by destruct s. Qed.

Lemma VStr_sentinel (s : string) : VStr s ∈ [VNone; VStr ""] → s = "".
Proof.
  intros [Heq|Hin]%elem_of_cons; [done|].
  apply elem_of_cons in Hin as [Heq|Hin]; [congruence|by apply elem_of_nil in Hin].
Qed.

Lemma normalize_lower (s : string) :
  normalize (VStr (py_lower s)) = normalize (VStr s).
Proof.
  unfold normalize. destruct (decide (s = "")) as [->|Hne]; [done|].
  rewrite !bool_decide_eq_false_2.
  - unfold py_str. by rewrite py_lower_idemp.
  - intros Hin. by apply VStr_sentinel in Hin.
  - intros Hin. apply VStr_sentinel in Hin. by apply (proj1 (py_lower_empty s)) in Hin.
Qed.

(** X23: the keywords of the configuration are taken without regard to
    case: the filter built from a configuration is the filter built from
    that configuration with every keyword in lower case. *)
Theorem KeywordFilter_init_ignores_case (config : Config) :
  KeywordFilter_init (lower_config config) = KeywordFilter_init config.
Proof.
  assert (∀ o : option (list string),
            py_lower <$> default [] ((λ l : list string, py_lower <$> l) <$> o)
            = py_lower <$> default [] o) as Hlower.
  { intros [l|]; [|done]. simpl. rewrite <- list_fmap_compose.
    apply list_fmap_ext. intros _ k _. apply py_lower_idemp. }
  unfold KeywordFilter_init, lower_config. simpl. by rewrite !Hlower.
Qed.

(** X24: the duplicate test compares companies and titles without regard
    to case: with the company and the title of the first job given in
    lower case, or those of the second, the result is the same. *)
Theorem are_jobs_duplicate_ignores_case (self : JobDeduplicator)
    (job1 job2 : Job) (c t : string) :
  are_jobs_duplicate self
    (with_company_title job1 (VStr (py_lower c)) (VStr (py_lower t))) job2
  = are_jobs_duplicate self (with_company_title job1 (VStr c) (VStr t)) job2
  ∧ are_jobs_duplicate self job1
      (with_company_title job2 (VStr (py_lower c)) (VStr (py_lower t)))
    = are_jobs_duplicate self job1 (with_company_title job2 (VStr c) (VStr t)).
Proof.
  unfold are_jobs_duplicate. simpl. unfold dict_get. simpl.
  by rewrite !normalize_lower.
Qed.

(** X1 on the first and the fourth job of the self-test: nothing is
    removed. *)
Lemma deduplicate_length_witness :
  deduplicate default_deduplicator
    [ posting "1" "Figma" "Product Design Intern" 10;
      posting "4" "Figma" "Engineering Intern" 7 ]
  = [ posting "1" "Figma" "Product Design Intern" 10;
      posting "4" "Figma" "Engineering Intern" 7 ].
Proof.
  apply (deduplicate_length default_deduplicator
           [ posting "1" "Figma" "Product Design Intern" 10;
             posting "4" "Figma" "Engineering Intern" 7 ]).
  vm_compute. reflexivity.
Defined.

(** X6 on the jobs of the self-test: the third and the fifth job. *)
Lemma find_duplicates_spec_witness :
  (posting "3" "Stripe" "UX Design Intern" 9,
   posting "5" "Stripe" "UX Design Intern" 11, ExactMatch "stripe")
  ∈ find_duplicates default_deduplicator test_jobs.
Proof.
  apply (find_duplicates_spec default_deduplicator test_jobs).
  exists 2, 4. split; [lia|]. split; [reflexivity|]. split; reflexivity.
Defined.

(** X21 on an empty scrape. *)
Lemma run_never_fails_witness :
  InternshipScraper.run (KeywordFilter_init keywords_yml) default_deduplicator []
  = InternshipScraper.NoJobsFound.
Proof.
  destruct (run_never_fails (KeywordFilter_init keywords_yml) default_deduplicator [])
    as (_ & _ & [_ Hempty] & _).
  apply Hempty. reflexivity.
Defined.
